(** * AutoSecure: findings, grouping and single-line patching ([fix.py])

    A shallow embedding of the normalisation, grouping and patch pipeline of
    [fix.py], and the properties of its specification.

    Modelling conventions.
    - A Python [str] is a [list ascii]; a character stands for the code point
      of the same number (U+0000 to U+00FF).
    - A Python [int] is a [Z].
    - The file system is a finite map from paths to file contents.  Reading in
      text mode translates line ends ([universal_newlines]); writing is the
      POSIX one, which writes the text as it is.
    - Exceptions are the [Raise] results of the [result] type; [console.print]
      has no effect on the data and is left out. *)

From Stdlib Require Import ZArith List Ascii String Sorted Permutation Lia.
From stdpp Require Import base list gmap strings sorting.

Open Scope Z_scope.

(** ** Python strings *)

Abbreviation str := (list ascii).

Definition lit (s : string) : str := list_ascii_of_string s.
Arguments lit : simpl never.

Definition LF : ascii := "010"%char.
Definition CR : ascii := "013"%char.

Definition ascii_code (c : ascii) : N := N_of_ascii c.

(** [str.isspace] on one character: the white space of Python 3 among the
    code points below 256. *)
Definition isspace (c : ascii) : bool :=
  let n := ascii_code c in
  ((9 <=? n) && (n <=? 13) || (28 <=? n) && (n <=? 32)
   || (n =? 133) || (n =? 160))%N.

(** [str.isdigit] on one character: the decimal digits and the superscript
    digits U+00B2, U+00B3 and U+00B9. *)
Definition isdigit_char (c : ascii) : bool :=
  let n := ascii_code c in
  ((48 <=? n) && (n <=? 57) || (n =? 178) || (n =? 179) || (n =? 185))%N.

Definition is_decimal (c : ascii) : bool :=
  let n := ascii_code c in ((48 <=? n) && (n <=? 57))%N.

(** [s.lstrip()] *)
Fixpoint lstrip (s : str) : str :=
  match s with
  | [] => []
  | c :: s' => if isspace c then lstrip s' else s
  end.

(** [s.rstrip()] *)
Definition rstrip (s : str) : str := rev (lstrip (rev s)).

(** [s.strip()] *)
Definition strip (s : str) : str := rstrip (lstrip s).

(** [s.isdigit()]: every character is a digit and there is at least one. *)
Definition isdigit (s : str) : bool :=
  match s with
  | [] => false
  | _ => forallb isdigit_char s
  end.

(** [s.split(',')] *)
Fixpoint split_on (sep : ascii) (s : str) : list str :=
  match s with
  | [] => [[]]
  | c :: s' =>
      if Ascii.eqb c sep then [] :: split_on sep s'
      else match split_on sep s' with
           | [] => [[c]]
           | f :: fs => (c :: f) :: fs
           end
  end.

(** [sub in s] for two strings *)
Fixpoint starts_with (p s : str) : bool :=
  match p, s with
  | [], _ => true
  | _ :: _, [] => false
  | a :: p', b :: s' => Ascii.eqb a b && starts_with p' s'
  end.

Fixpoint contains (sub s : str) : bool :=
  starts_with sub s ||
  match s with
  | [] => false
  | _ :: s' => contains sub s'
  end.

(** The value of a string of decimal digits, most significant first. *)
Definition digits_value (s : str) : Z :=
  fold_left (fun acc c => 10 * acc + (Z.of_N (ascii_code c) - 48)) s 0.

(** Digit groups of an integer literal: digits, with single underscores
    between digits only. *)
Fixpoint int_body (prev_digit : bool) (s : str) : option str :=
  match s with
  | [] => if prev_digit then Some [] else None
  | c :: s' =>
      if is_decimal c then option_map (cons c) (int_body true s')
      else if Ascii.eqb c "_"%char
           then (if prev_digit
                 then match s' with
                      | d :: _ => if is_decimal d then int_body false s' else None
                      | [] => None
                      end
                 else None)
           else None
  end.

(** [int(s)] for a string: [None] stands for [ValueError]. *)
Definition py_int (s : str) : option Z :=
  match strip s with
  | [] => None
  | c :: s' =>
      if Ascii.eqb c "-"%char then option_map (fun d => - digits_value d) (int_body false s')
      else if Ascii.eqb c "+"%char then option_map digits_value (int_body false s')
      else option_map digits_value (int_body false (c :: s'))
  end.

(** Text-mode reading: ["\r\n"] and ["\r"] become ["\n"]. *)
Fixpoint universal_newlines (s : str) : str :=
  match s with
  | [] => []
  | c :: s' =>
      if Ascii.eqb c CR
      then LF :: match s' with
                 | [] => []
                 | d :: s'' =>
                     if Ascii.eqb d LF then universal_newlines s''
                     else universal_newlines s'
                 end
      else c :: universal_newlines s'
  end.

(** Lines of a text, each with its line end. *)
Fixpoint split_lines (s : str) : list str :=
  match s with
  | [] => []
  | c :: s' =>
      if Ascii.eqb c LF then [c] :: split_lines s'
      else match split_lines s' with
           | [] => [[c]]
           | l :: ls => (c :: l) :: ls
           end
  end.

(** [open(path, 'r').readlines()] on the content of the file. *)
Definition readlines (content : str) : list str :=
  split_lines (universal_newlines content).

(** [f.writelines(lines)] from an empty file. *)
Definition writelines (lines : list str) : str := concat lines.

(** ** Exceptions *)

Inductive exn :=
  | ValueError
  | TypeError
  | AttributeError
  | KeyError
  | FileNotFoundError
  | SameFileError.

Inductive result (A : Type) :=
  | Ok (a : A)
  | Raise (e : exn).
Arguments Ok {A} a.
Arguments Raise {A} e.

#[global] Instance result_bind : MBind result := fun A B k r =>
  match r with
  | Ok a => k a
  | Raise e => Raise e
  end.

#[global] Instance result_ret : MRet result := fun A a => Ok a.

#[global] Instance result_fmap : FMap result := fun A B f r =>
  match r with
  | Ok a => Ok (f a)
  | Raise e => Raise e
  end.

(** ** Findings *)

Record Vulnerability := {
  tool : str;
  file_path : str;
  line : Z;
  message : str;
  severity : str;
  column : option Z
}.

(** [[Z.of_nat (length l)]]: Python's [len]. *)
Definition len {A} (l : list A) : Z := Z.of_nat (length l).

(** [l[a:b]] for [0 <= a]. *)
Definition slice {A} (l : list A) (a b : Z) : list A :=
  take (Z.to_nat (b - a)) (drop (Z.to_nat a) l).

(** ** JSON values, as [json.loads] returns them *)

(** Of a float only its truth value is kept: nothing else of it is used. *)
#[warnings="-register-all"]
Inductive json :=
  | JNull
  | JBool (b : bool)
  | JInt (z : Z)
  | JFloat (nonzero : bool)
  | JStr (s : str)
  | JList (l : list json)
  | JDict (d : list (str * json)).

(** [d.get(k)] on the items of a dict (its keys are distinct). *)
Fixpoint assoc {B} (k : str) (d : list (str * B)) : option B :=
  match d with
  | [] => None
  | (k', v) :: d' => if decide (k = k') then Some v else assoc k d'
  end.

(** Truth value of an object in a condition. *)
Definition truthy (j : json) : bool :=
  match j with
  | JNull => false
  | JBool b => b
  | JInt z => negb (z =? 0)
  | JFloat nonzero => nonzero
  | JStr s => negb (bool_decide (s = []))
  | JList l => negb (bool_decide (length l = 0%nat))
  | JDict d => negb (bool_decide (length d = 0%nat))
  end.

(** [k in j] for a string [k]. *)
Definition py_in (k : str) (j : json) : result bool :=
  match j with
  | JDict d => Ok (bool_decide (is_Some (assoc k d)))
  | JStr s => Ok (contains k s)
  | JList l =>
      Ok (existsb (fun x => match x with JStr s => bool_decide (s = k) | _ => false end) l)
  | JNull | JBool _ | JInt _ | JFloat _ => Raise TypeError
  end.

(** [j[k]] for a string [k]. *)
Definition getitem (k : str) (j : json) : result json :=
  match j with
  | JDict d => match assoc k d with Some v => Ok v | None => Raise KeyError end
  | _ => Raise TypeError
  end.

(** [j.rstrip()] *)
Definition rstrip_of (j : json) : result str :=
  match j with
  | JStr s => Ok (rstrip s)
  | _ => Raise AttributeError
  end.

(** ** The fix service *)

(** The fields that the prompt of [_query_llm_for_fix] is built from. *)
Record prompt := {
  p_vulnerability : str;
  p_file : str;
  p_target_line : str;
  p_surrounding_code : str
}.

(** What [requests.post], [raise_for_status] and [response.json()] give. *)
Inductive http_reply :=
  | TransportError
  | HttpStatusError
  | BodyNotJson
  | Body (j : json).

Module AIHealer.
Section Healer.

(** The service behind [api_url], and [json.loads] on a string ([None]
    is a decode error). *)
Variable post : prompt -> http_reply.
Variable json_loads : str -> option json.

Definition build_prompt (original_line code_context : str)
    (issue : Vulnerability) : prompt :=
  {| p_vulnerability := message issue;
     p_file := file_path issue;
     p_target_line := original_line;
     p_surrounding_code := code_context |}.

(** [_query_llm_for_fix]: every exception of the [try] block gives [None]. *)
Definition _query_llm_for_fix (original_line code_context : str)
    (issue : Vulnerability) : option json :=
  match post (build_prompt original_line code_context issue) with
  | TransportError => None
  | HttpStatusError => None
  | BodyNotJson => None
  | Body response_json =>
      match response_json with
      | JDict d =>
          match assoc (lit "response") d with
          | None => json_loads (lit "{}")
          | Some (JStr s) => json_loads s
          | Some _ => None
          end
      | _ => None
      end
  end.

(** [_get_indentation] *)
Definition _get_indentation (line : str) : str :=
  let stripped := lstrip line in
  if bool_decide (stripped = []) || bool_decide (stripped = [LF]) then line
  else take (length line - length stripped) line.

(** [sorted(vulnerabilities, key=lambda x: x.line)]: the stable sort. *)
Fixpoint insert_by_line (v : Vulnerability) (l : list Vulnerability)
    : list Vulnerability :=
  match l with
  | [] => [v]
  | w :: l' => if line v <=? line w then v :: l else w :: insert_by_line v l'
  end.

Fixpoint sorted (l : list Vulnerability) : list Vulnerability :=
  match l with
  | [] => []
  | v :: l' => insert_by_line v (sorted l')
  end.

(** The loop of [_group_vulnerabilities]; [current_group] is never empty,
    so the default of [List.last] is not used. *)
Fixpoint group_loop (groups : list (list Vulnerability))
    (current_group : list Vulnerability) (rest : list Vulnerability)
    : list (list Vulnerability) * list Vulnerability :=
  match rest with
  | [] => (groups, current_group)
  | vuln :: rest' =>
      if line vuln - line (List.last current_group vuln) <=? 3
      then group_loop groups (current_group ++ [vuln]) rest'
      else group_loop (groups ++ [current_group]) [vuln] rest'
  end.

(** [_group_vulnerabilities]; the sorted list of a list that is not empty
    is not empty, and [current_group] is not empty after the loop. *)
Definition _group_vulnerabilities (vulnerabilities : list Vulnerability)
    : list (list Vulnerability) :=
  match vulnerabilities with
  | [] => []
  | _ =>
      match sorted vulnerabilities with
      | [] => []
      | first :: rest =>
          let '(groups, current_group) := group_loop [] [first] rest in
          match current_group with
          | [] => groups
          | _ => groups ++ [current_group]
          end
      end
  end.

(** The editing session of one file: the working copy and the counter. *)
Record session := {
  modified_lines : list str;
  fixed_count : Z
}.

(** The line that replaces [original_line] for the payload [fixed_content]. *)
Definition candidate (original_line fixed_content : str) : str :=
  _get_indentation original_line ++ fixed_content ++ [LF].

(** The test of line 133. *)
Definition significant (original_line fixed_content : str) : bool :=
  negb (bool_decide (candidate original_line fixed_content = original_line))
  && (0 <? len (strip fixed_content)).

(** Lines 129 to 143: what the answer of the service does to the session. *)
Definition apply_fix (st : session) (line_idx : Z) (original_line : str)
    (fix_data : option json) : result session :=
  match fix_data with
  | None => Ok st
  | Some j =>
      if truthy j then
        has_fix ← py_in (lit "fixed_line") j;
        if (has_fix : bool) then
          payload ← getitem (lit "fixed_line") j;
          fixed_content ← rstrip_of payload;
          if significant original_line fixed_content
          then Ok {| modified_lines :=
                       <[Z.to_nat line_idx := candidate original_line fixed_content]>
                         (modified_lines st);
                     fixed_count := fixed_count st + 1 |}
          else Ok st
        else Ok st
      else Ok st
  end.

(** Lines 119 to 121: up to two lines before and after the target. *)
Definition code_context (modified_lines : list str) (line_idx : Z) : str :=
  let context_start := Z.max 0 (line_idx - 2) in
  let context_end := Z.min (len modified_lines) (line_idx + 3) in
  concat (slice modified_lines context_start context_end).

(** One turn of the loop of [fix_file] (lines 108 to 143); inside the
    bounds the lookup of the line does not fail. *)
Definition fix_unit (st : session) (vuln_group : list Vulnerability)
    : result session :=
  match vuln_group with
  | [] => Ok st
  | primary_vuln :: _ =>
      let line_idx := line primary_vuln - 1 in
      if (0 <=? line_idx) && (line_idx <? len (modified_lines st)) then
        match modified_lines st !! Z.to_nat line_idx with
        | None => Ok st
        | Some original_line =>
            let fix_data :=
              _query_llm_for_fix original_line
                (code_context (modified_lines st) line_idx) primary_vuln in
            apply_fix st line_idx original_line fix_data
        end
      else Ok st
  end.

Fixpoint fix_units (st : session) (grouped_vulns : list (list Vulnerability))
    : result session :=
  match grouped_vulns with
  | [] => Ok st
  | vuln_group :: rest => st' ← fix_unit st vuln_group; fix_units st' rest
  end.

(** [Path(p).name] and what is before it, for a path as [resolve] gives
    it (absolute, no doubled or trailing slash). *)
Fixpoint split_name (p : str) : str * str :=
  match p with
  | [] => ([], [])
  | c :: p' =>
      let '(dir, name) := split_name p' in
      match dir with
      | [] => if Ascii.eqb c "/"%char then ([c], name) else ([], c :: name)
      | _ => (c :: dir, name)
      end
  end.

(** [name.rfind('.')]: the index of the last dot. *)
Fixpoint rfind_dot (name : str) : option nat :=
  match name with
  | [] => None
  | c :: name' =>
      match rfind_dot name' with
      | Some i => Some (S i)
      | None => if Ascii.eqb c "."%char then Some 0%nat else None
      end
  end.

(** [PurePath.suffix] of a name. *)
Definition suffix (name : str) : str :=
  match rfind_dot name with
  | Some i =>
      if bool_decide (0 < i < length name - 1)%nat then drop i name else []
  | None => []
  end.

(** [Path(p).with_suffix(new)] for a well-formed suffix [new]. *)
Definition with_suffix (p new : str) : result str :=
  let '(dir, name) := split_name p in
  match name with
  | [] => Raise ValueError
  | _ =>
      let old_suffix := suffix name in
      match old_suffix with
      | [] => Ok (dir ++ name ++ new)
      | _ => Ok (dir ++ take (length name - length old_suffix) name ++ new)
      end
  end.

(** [shutil.copy2(src, dst)] between two paths of regular files. *)
Definition copy2 (fs : gmap str str) (src dst : str) : result (gmap str str) :=
  if bool_decide (src = dst) then Raise SameFileError
  else match fs !! src with
       | Some content => Ok (<[dst := content]> fs)
       | None => Raise FileNotFoundError
       end.

(** Lines 145 to 155. *)
Definition finalize (fs : gmap str str) (file_path : str) (st : session)
    : result (gmap str str) :=
  if 0 <? fixed_count st then
    backup_path ← with_suffix file_path (lit ".bak");
    fs' ← copy2 fs file_path backup_path;
    Ok (<[file_path := writelines (modified_lines st)]> fs')
  else Ok fs.

(** [fix_file] *)
Definition fix_file (fs : gmap str str) (file_path : str)
    (vulnerabilities : list Vulnerability) : result (gmap str str) :=
  match fs !! file_path with
  | None => Ok fs
  | Some content =>
      let lines := readlines content in
      let grouped_vulns := _group_vulnerabilities vulnerabilities in
      st ← fix_units {| modified_lines := lines; fixed_count := 0 |} grouped_vulns;
      finalize fs file_path st
  end.

(** The dictionary [files_with_issues] of [main], in insertion order. *)
Fixpoint add_issue (issue : Vulnerability)
    (files : list (str * list Vulnerability)) : list (str * list Vulnerability) :=
  match files with
  | [] => [(file_path issue, [issue])]
  | (p, issues) :: files' =>
      if decide (file_path issue = p) then (p, issues ++ [issue]) :: files'
      else (p, issues) :: add_issue issue files'
  end.

Definition files_with_issues (all_issues : list Vulnerability)
    : list (str * list Vulnerability) :=
  fold_left (fun files issue => add_issue issue files) all_issues [].

(** The loop of [main] over the files (lines 277 to 283). *)
Fixpoint heal_files (fs : gmap str str)
    (files : list (str * list Vulnerability)) : result (gmap str str) :=
  match files with
  | [] => Ok fs
  | (file_path, issues) :: rest =>
      match fs !! file_path with
      | Some _ => fs' ← fix_file fs file_path issues; heal_files fs' rest
      | None => heal_files fs rest
      end
  end.

End Healer.
End AIHealer.

(** ** The reports of the analyzers *)

(** An element of [xml.etree.ElementTree]. *)
#[warnings="-register-all"]
Inductive element :=
  | Element (tag : str) (attrib : list (str * str)) (children : list element).

Definition e_tag (e : element) : str := let 'Element t _ _ := e in t.
Definition e_attrib (e : element) : list (str * str) := let 'Element _ a _ := e in a.
Definition e_children (e : element) : list element := let 'Element _ _ c := e in c.

Module StaticAnalyzer.
Section Analyzer.

(** [str(Path(p).resolve())] *)
Variable resolve : str -> str.

(** All elements of the tree in document order, the root first. *)
Fixpoint descendants (e : element) : list element :=
  match e with
  | Element _ _ children => e :: flat_map descendants children
  end.

(** [root.iter(tag)] *)
Definition iter (tag : str) (root : element) : list element :=
  filter (fun e => e_tag e = tag) (descendants root).

(** [e.find(tag)]: the first child with this tag. *)
Definition find (tag : str) (e : element) : option element :=
  head (filter (fun c => e_tag c = tag) (e_children e)).

(** [e.get(key)] *)
Definition get (key : str) (e : element) : option str := assoc key (e_attrib e).

(** [int(location.get("line", 0))] *)
Definition cppcheck_line (location : element) : result Z :=
  match get (lit "line") location with
  | None => Ok 0
  | Some s => match py_int s with Some z => Ok z | None => Raise ValueError end
  end.

(** The body of the loop over the [error] elements (lines 52 to 63). *)
Definition cppcheck_error (vulns : list Vulnerability) (error : element)
    : result (list Vulnerability) :=
  match find (lit "location") error with
  | None => Ok vulns
  | Some location =>
      match get (lit "file") location with
      | None => Ok vulns
      | Some [] => Ok vulns
      | Some file_path =>
          let abs_path := resolve file_path in
          l ← cppcheck_line location;
          Ok (vulns ++ [{| tool := lit "cppcheck";
                           file_path := abs_path;
                           line := l;
                           message := default [] (get (lit "msg") error);
                           severity := default (lit "info") (get (lit "severity") error);
                           column := None |}])
      end
  end.

Fixpoint cppcheck_errors (vulns : list Vulnerability) (errors : list element)
    : result (list Vulnerability) :=
  match errors with
  | [] => Ok vulns
  | error :: rest => vulns' ← cppcheck_error vulns error; cppcheck_errors vulns' rest
  end.

(** [_run_cppcheck] on what [ET.parse] gives for the report: [None] is
    [ET.ParseError], which the [except] clause catches. *)
Definition _run_cppcheck (report : option element) : result (list Vulnerability) :=
  match report with
  | None => Ok []
  | Some root => cppcheck_errors [] (iter (lit "error") root)
  end.

(** [int(parts[1]) if parts[1].isdigit() else 0] *)
Definition flawfinder_line (field : str) : result Z :=
  if isdigit field
  then match py_int field with Some z => Ok z | None => Raise ValueError end
  else Ok 0.

(** The body of the loop over the rows (lines 79 to 87). *)
Definition flawfinder_row (vulns : list Vulnerability) (row : str)
    : result (list Vulnerability) :=
  let parts := split_on ","%char (strip row) in
  if 7 <=? len parts then
    l ← flawfinder_line (parts !!! 1%nat);
    Ok (vulns ++ [{| tool := lit "flawfinder";
                     file_path := resolve (parts !!! 0%nat);
                     line := l;
                     message := parts !!! 6%nat;
                     severity := parts !!! 3%nat;
                     column := None |}])
  else Ok vulns.

Fixpoint flawfinder_rows (vulns : list Vulnerability) (rows : list str)
    : result (list Vulnerability) :=
  match rows with
  | [] => Ok vulns
  | row :: rest => vulns' ← flawfinder_row vulns row; flawfinder_rows vulns' rest
  end.

(** [_run_flawfinder] on the content of the report, [None] when the file
    does not exist. *)
Definition _run_flawfinder (csv : option str) : result (list Vulnerability) :=
  match csv with
  | None => Ok []
  | Some content => flawfinder_rows [] (drop 1 (readlines content))
  end.

(** [run_all] *)
Definition run_all (report : option element) (csv : option str)
    : result (list Vulnerability) :=
  a ← _run_cppcheck report;
  b ← _run_flawfinder csv;
  Ok (a ++ b).

End Analyzer.
End StaticAnalyzer.

(** * Predicates of the specification *)

Module Spec.
Import AIHealer.

Definition le_line (a b : Vulnerability) : Prop := line a <= line b.

(** Consecutive members of a group are at most three lines apart. *)
Definition chained (g : list Vulnerability) : Prop :=
  forall (i : nat) a b, g !! i = Some a -> g !! S i = Some b -> line b - line a <= 3.

(** A group starts more than three lines after the end of the group before. *)
Definition gap (g1 g2 : list Vulnerability) : Prop :=
  forall a b, last g1 = Some a -> head g2 = Some b -> 3 < line b - line a.

Definition separated (gs : list (list Vulnerability)) : Prop :=
  forall (i : nat) g1 g2, gs !! i = Some g1 -> gs !! S i = Some g2 -> gap g1 g2.

(** A finding that has only a line: the findings of the examples. *)
Definition at_line (l : Z) : Vulnerability :=
  {| tool := []; file_path := []; line := l; message := [];
     severity := []; column := None |}.

Definition good_group (g : list Vulnerability) : Prop := g <> [] /\ chained g.

(** A string of white space only (the empty string too). *)
Definition blank (s : str) : Prop := forallb isspace s = true.

(** The replies after which [_query_llm_for_fix] has no JSON to return:
    a transport exception, an HTTP error status, a body that is not JSON,
    and a [response] field that does not decode. *)
Definition service_failed (json_loads : str -> option json) (r : http_reply) : Prop :=
  r = TransportError \/ r = HttpStatusError \/ r = BodyNotJson
  \/ exists d s, r = Body (JDict d) /\ assoc (lit "response") d = Some (JStr s)
                 /\ json_loads s = None.

(** The session that [fix_file] starts from. *)
Definition start (content : str) : session :=
  {| modified_lines := readlines content; fixed_count := 0 |}.

(** The value of [fixed_count] when the loop of [fix_file] ends. *)
Definition accepted_changes (post : prompt -> http_reply)
    (json_loads : str -> option json) (fs : gmap str str) (file_path : str)
    (vulnerabilities : list Vulnerability) : result Z :=
  match fs !! file_path with
  | None => Ok 0
  | Some content =>
      st ← fix_units post json_loads (start content)
             (_group_vulnerabilities vulnerabilities);
      Ok (fixed_count st)
  end.

(** The number of positions at which two working copies differ. *)
Fixpoint diff_count (a b : list str) : Z :=
  match a, b with
  | x :: a', y :: b' => (if decide (x = y) then 0 else 1) + diff_count a' b'
  | _, _ => 0
  end.

(** The position of the working copy that a unit is about. *)
Definition target_of (g : list Vulnerability) (i : nat) : Prop :=
  exists v, head g = Some v /\ line v - 1 = Z.of_nat i.

(** [c] is the payload, without its trailing white space, of an answer to
    a request about the primary finding of [g]. *)
Definition proposed (post : prompt -> http_reply)
    (json_loads : str -> option json) (g : list Vulnerability) (c : str) : Prop :=
  exists v l ctx j p,
    head g = Some v
    /\ _query_llm_for_fix post json_loads l ctx v = Some j
    /\ getitem (lit "fixed_line") j = Ok (JStr p)
    /\ c = rstrip p.

(** A line with its line feed, and a last line without one. *)
Definition terminated (l : str) : Prop :=
  exists body, l = body ++ [LF] /\ LF ∉ body.

Definition unterminated (l : str) : Prop := l <> [] /\ LF ∉ l.

(** The shape of what [readlines] returns: every entry is one line, and
    only the last one may lack its line feed. *)
Fixpoint proper_lines (ls : list str) : Prop :=
  match ls with
  | [] => True
  | l :: ls' =>
      match ls' with
      | [] => terminated l \/ unterminated l
      | _ :: _ => terminated l /\ proper_lines ls'
      end
  end.

(** The decision of lines 129 to 143 for the line [L]: the line that
    replaces it, if any. *)
Definition decision (L : str) (fix_data : option json) : result (option str) :=
  match fix_data with
  | None => Ok None
  | Some j =>
      if truthy j then
        has_fix ← py_in (lit "fixed_line") j;
        if (has_fix : bool) then
          payload ← getitem (lit "fixed_line") j;
          fixed_content ← rstrip_of payload;
          if significant L fixed_content
          then Ok (Some (candidate L fixed_content))
          else Ok None
        else Ok None
      else Ok None
  end.

(** A proposal as the prompt asks for it: no indentation of its own and
    no line end inside. *)
Definition clean (c : str) : Prop := lstrip c = c /\ (LF ∉ c) /\ (CR ∉ c).

(** The request that the loop of [fix_file] makes for a unit on the
    working copy [lines] (lines 112 to 127), if it makes one. *)
Definition request_of (lines : list str) (vuln_group : list Vulnerability)
    : option prompt :=
  match vuln_group with
  | [] => None
  | primary_vuln :: _ =>
      let line_idx := line primary_vuln - 1 in
      if (0 <=? line_idx) && (line_idx <? len lines) then
        match lines !! Z.to_nat line_idx with
        | None => None
        | Some original_line =>
            Some (build_prompt original_line (code_context lines line_idx)
                    primary_vuln)
        end
      else None
  end.

(** The lines of the primary findings of the units. *)
Definition primary_lines (gs : list (list Vulnerability)) : list Z :=
  flat_map (fun g => match g with [] => [] | v :: _ => [line v] end) gs.

End Spec.

(** * Sample data *)

Module Samples.
Import AIHealer Spec.

(** A service that answers every request with the same [fixed_line]. *)
Definition answer (fixed_line : str) : prompt -> http_reply :=
  fun _ => Body (JDict [(lit "response", JStr fixed_line)]).

(** A decoder that wraps the text it is given as the [fixed_line] of a dict. *)
Definition wrap (s : str) : option json :=
  Some (JDict [(lit "fixed_line", JStr s); (lit "reason", JStr (lit "safer"))]).

(** A service that is down, and a decoder that rejects everything. *)
Definition down : prompt -> http_reply := fun _ => TransportError.
Definition reject : str -> option json := fun _ => None.

(** A finding of [cppcheck] on [/src/foo.c]. *)
Definition finding (l : Z) : Vulnerability :=
  {| tool := lit "cppcheck"; file_path := lit "/src/foo.c"; line := l;
     message := lit "buffer overflow"; severity := lit "warning"; column := None |}.

(** A two-line C file. *)
Definition foo_c : str := lit "  gets(buf);" ++ [LF] ++ lit "  return 0;" ++ [LF].

Definition disk : gmap str str := {[ lit "/src/foo.c" := foo_c ]}.



(** A source file and its header, in one directory. *)
Definition foo_h : str := lit "char *gets(char *);" ++ [LF].

Definition pair_disk : gmap str str :=
  <[ lit "/src/foo.h" := foo_h ]> disk.

Definition header_finding (l : Z) : Vulnerability :=
  {| tool := lit "cppcheck"; file_path := lit "/src/foo.h"; line := l;
     message := lit "obsolete function"; severity := lit "style"; column := None |}.

(** The session of [/src/foo.c] before the first unit. *)
Definition session0 : session := start foo_c.

(** A service that answers with an error status when the target line is
    the call of [gets], and with a proposal otherwise. *)
Definition flaky (pr : prompt) : http_reply :=
  if bool_decide (p_target_line pr = lit "  gets(buf);" ++ [LF])
  then HttpStatusError
  else Body (JDict [(lit "response", JStr (lit "strncpy(a, b, n);"))]).

(** A file of six lines, with a finding for the first and for the last. *)
Definition long_c : str :=
  lit "  gets(buf);" ++ [LF] ++ lit "  a = buf;" ++ [LF] ++ lit "  b = out;" ++ [LF]
  ++ lit "  n = 8;" ++ [LF] ++ lit "  check(n);" ++ [LF] ++ lit "  strcpy(a, b);" ++ [LF].

(** A file of one line, beside the header. *)
Definition bar_c : str := lit "  gets(buf);" ++ [LF].

Definition bar_disk : gmap str str :=
  <[ lit "/src/foo.h" := foo_h ]> {[ lit "/src/bar.c" := bar_c ]}.

Definition bar_finding (l : Z) : Vulnerability :=
  {| tool := lit "flawfinder"; file_path := lit "/src/bar.c"; line := l;
     message := lit "no bound check"; severity := lit "4"; column := None |}.

(** The two-line C file with the line ends of another system. *)
Definition crlf_c : str :=
  lit "  gets(buf);" ++ [CR; LF] ++ lit "  return 0;" ++ [CR; LF].

Definition crlf_disk : gmap str str := {[ lit "/src/foo.c" := crlf_c ]}.

(** A file that is one line of white space. *)
Definition blank_c : str := lit "    " ++ [LF].

Definition blank_disk : gmap str str := {[ lit "/src/foo.c" := blank_c ]}.

(** A proposal with a carriage return inside. *)
Definition two_statements : str := lit "a;" ++ [CR] ++ lit "b;".

(** A report of [cppcheck] with one error, located at [line]. *)
Definition report (line : str) : element :=
  Element (lit "results") [(lit "version", lit "2")]
    [Element (lit "errors") []
       [Element (lit "error")
          [(lit "id", lit "bufferAccessOutOfBounds"); (lit "severity", lit "error");
           (lit "msg", lit "Buffer is accessed out of bounds")]
          [Element (lit "location")
             [(lit "file", lit "/src/foo.c"); (lit "line", line)] []]]].

(** A report of [flawfinder]: the header row and one row, located at [line]. *)
Definition csv (line : str) : str :=
  lit "File,Line,Column,Level,Category,Name,Warning" ++ [LF]
  ++ lit "/src/foo.c," ++ line ++ lit ",3,4,buffer,gets,no bound check" ++ [LF].

End Samples.

(** * Properties *)

(** ** Grouping *)

Module Grouping.
Import AIHealer Spec.

#[global] Instance le_line_trans : Transitive le_line.
Proof. intros a b c; unfold le_line; lia. Qed.

Lemma insert_by_line_perm v l : insert_by_line v l ≡ₚ v :: l.
Proof.
  induction l as [|w l IH]; simpl; [done|].
  destruct (line v <=? line w); [done|].
  rewrite IH. apply Permutation_swap.
Qed.

Lemma sorted_perm l : sorted l ≡ₚ l.
Proof.
  induction l as [|v l IH]; simpl; [done|].
  by rewrite insert_by_line_perm, IH.
Qed.

Lemma insert_by_line_sorted v l :
  StronglySorted le_line l -> StronglySorted le_line (insert_by_line v l).
Proof.
  induction l as [|w l IH]; simpl; intros Hs.
  - repeat constructor.
  - apply StronglySorted_inv in Hs as [Hl Hw].
    destruct (line v <=? line w) eqn:E.
    + apply Z.leb_le in E. constructor; [by constructor|].
      constructor; [exact E|].
      eapply Forall_impl; [exact Hw|]. intros x Hx. unfold le_line in *. lia.
    + apply Z.leb_gt in E. constructor; [by apply IH|].
      rewrite insert_by_line_perm. constructor; [unfold le_line; lia|exact Hw].
Qed.

Lemma sorted_sorted l : StronglySorted le_line (sorted l).
Proof.
  induction l as [|v l IH]; simpl; [constructor|by apply insert_by_line_sorted].
Qed.

Lemma insert_by_line_filter k v l :
  filter (fun x => line x = k) (insert_by_line v l)
  = filter (fun x => line x = k) (v :: l).
Proof.
  induction l as [|w l IH]; simpl; [done|].
  destruct (line v <=? line w) eqn:E; [done|].
  apply Z.leb_gt in E.
  rewrite (filter_cons _ w (insert_by_line v l)), IH.
  rewrite !filter_cons.
  repeat case_decide; try done; lia.
Qed.

(** The sort is stable: findings of one line keep their order. *)
Lemma sorted_stable k l :
  filter (fun x => line x = k) (sorted l) = filter (fun x => line x = k) l.
Proof.
  induction l as [|v l IH]; simpl; [done|].
  rewrite insert_by_line_filter, !filter_cons, IH. done.
Qed.

Lemma chained_singleton v : chained [v].
Proof. intros [|i] a b Ha Hb; simplify_eq/=. Qed.

Lemma chained_snoc g x v :
  chained (g ++ [x]) -> line v - line x <= 3 -> chained ((g ++ [x]) ++ [v]).
Proof.
  intros Hc Hv i a b Ha Hb.
  destruct (decide (S i < length (g ++ [x]))%nat) as [Hlt|Hge].
  - rewrite lookup_app_l in Ha by lia. rewrite lookup_app_l in Hb by lia. eauto.
  - assert (Hi : length (g ++ [x]) = S i).
    { apply lookup_lt_Some in Hb. rewrite length_app in Hb. simpl in Hb. lia. }
    rewrite lookup_app_r in Hb by lia.
    rewrite Hi, Nat.sub_diag in Hb. simplify_eq/=.
    rewrite lookup_app_l in Ha by lia.
    rewrite length_app in Hi. simpl in Hi.
    rewrite lookup_app_r in Ha by lia.
    replace (i - length g)%nat with 0%nat in Ha by lia. simplify_eq/=. done.
Qed.

Lemma separated_snoc_grow gs g v :
  g <> [] -> separated (gs ++ [g]) -> separated (gs ++ [g ++ [v]]).
Proof.
  intros Hg Hs i g1 g2 H1 H2.
  destruct (decide (S i < length gs)%nat) as [Hlt|Hge].
  - rewrite lookup_app_l in H1 by lia. rewrite lookup_app_l in H2 by lia.
    apply (Hs i); rewrite lookup_app_l by lia; done.
  - assert (Hi : length gs = S i).
    { apply lookup_lt_Some in H2. rewrite length_app in H2. simpl in H2. lia. }
    rewrite lookup_app_l in H1 by lia.
    rewrite lookup_app_r in H2 by lia.
    rewrite Hi, Nat.sub_diag in H2. simplify_eq/=.
    assert (Hgap : gap g1 g).
    { apply (Hs i); [by rewrite lookup_app_l by lia|].
      rewrite lookup_app_r by lia. by rewrite Hi, Nat.sub_diag. }
    intros a b Ha Hb. apply Hgap; [done|].
    destruct g; [done|]. done.
Qed.

Lemma separated_snoc_new gs g x v :
  separated (gs ++ [g ++ [x]]) -> 3 < line v - line x ->
  separated ((gs ++ [g ++ [x]]) ++ [[v]]).
Proof.
  intros Hs Hv i g1 g2 H1 H2.
  destruct (decide (S i < length (gs ++ [g ++ [x]]))%nat) as [Hlt|Hge].
  - rewrite lookup_app_l in H1 by lia. rewrite lookup_app_l in H2 by lia. eauto.
  - assert (Hi : length (gs ++ [g ++ [x]]) = S i).
    { apply lookup_lt_Some in H2. rewrite length_app in H2. simpl in H2. lia. }
    rewrite lookup_app_r in H2 by lia.
    rewrite Hi, Nat.sub_diag in H2. simplify_eq/=.
    rewrite lookup_app_l in H1 by lia.
    rewrite length_app in Hi. simpl in Hi.
    rewrite lookup_app_r in H1 by lia.
    replace (i - length gs)%nat with 0%nat in H1 by lia. simplify_eq/=.
    intros a b Ha Hb. rewrite last_snoc in Ha. simplify_eq/=. done.
Qed.

(** The invariant of the loop of [_group_vulnerabilities]. *)
Lemma group_loop_spec rest : forall groups g x gs c,
  group_loop groups (g ++ [x]) rest = (gs, c) ->
  Forall good_group groups -> chained (g ++ [x]) ->
  separated (groups ++ [g ++ [x]]) ->
  concat gs ++ c = concat groups ++ (g ++ [x]) ++ rest
  /\ c <> [] /\ Forall good_group gs /\ chained c /\ separated (gs ++ [c]).
Proof.
  induction rest as [|v rest IH]; intros groups g x gs c Hloop Hgs Hc Hsep.
  - simpl in Hloop. simplify_eq. rewrite app_nil_r.
    split_and!; try done. by destruct g.
  - simpl in Hloop. rewrite last_last in Hloop.
    destruct (line v - line x <=? 3) eqn:E.
    + apply Z.leb_le in E.
      apply IH in Hloop as (Hcat & ? & ? & ? & ?).
      * split_and!; try done. rewrite Hcat. by rewrite <- !app_assoc.
      * done.
      * by apply chained_snoc.
      * apply separated_snoc_grow; [by destruct g|done].
    + apply Z.leb_gt in E.
      apply (IH _ [] v) in Hloop as (Hcat & ? & ? & ? & ?).
      * split_and!; try done. rewrite Hcat, concat_app. simpl.
        by rewrite app_nil_r, <- !app_assoc.
      * apply Forall_app; split; [done|].
        constructor; [|done]. split; [by destruct g|done].
      * apply chained_singleton.
      * simpl. apply separated_snoc_new; [done|lia].
Qed.

Lemma sorted_nil_inv l : sorted l = [] -> l = [].
Proof.
  intros H. pose proof (sorted_perm l) as Hp. rewrite H in Hp.
  by apply Permutation_nil in Hp.
Qed.

Lemma group_spec vs :
  concat (_group_vulnerabilities vs) = sorted vs
  /\ Forall good_group (_group_vulnerabilities vs)
  /\ separated (_group_vulnerabilities vs).
Proof.
  unfold _group_vulnerabilities.
  destruct vs as [|v0 vs0]; [split_and!; [done|constructor|by intros []]|].
  set (vs := v0 :: vs0).
  destruct (sorted vs) as [|first rest] eqn:Hs.
  { split_and!; [done|constructor|by intros []]. }
  destruct (group_loop [] [first] rest) as [gs c] eqn:Hloop.
  apply (group_loop_spec rest [] [] first) in Hloop as (Hcat & Hc & Hg & Hch & Hsep).
  - assert (Hres : match c with [] => gs | _ :: _ => gs ++ [c] end = gs ++ [c])
      by (by destruct c).
    rewrite Hres. split_and!.
    + rewrite concat_app. simpl. rewrite app_nil_r. exact Hcat.
    + apply Forall_app; split; [done|]. by constructor.
    + done.
  - constructor.
  - apply chained_singleton.
  - intros [|i] g1 g2 H1 H2; simplify_eq/=.
Qed.

Lemma concat_sorted_groups (gs : list (list Vulnerability)) :
  StronglySorted le_line (concat gs) -> Forall (StronglySorted le_line) gs.
Proof.
  induction gs as [|g gs IH]; simpl; intros Hs; [constructor|].
  apply StronglySorted_app in Hs as (? & ? & ?). constructor; auto.
Qed.

(** C1. [_group_vulnerabilities] sorts the findings by line with a stable
    sort and cuts the sorted sequence where a finding is more than three
    lines after the last member of the current group: the groups, put end
    to end, are the stably sorted input (so they partition it), no group
    is empty, each group is sorted by line with consecutive members at
    most three lines apart, and each group starts more than three lines
    after the end of the one before.  No finding gives no group, and the
    lines 10, 12, 15, 30 give the groups [10, 12, 15] and [30]. *)
Theorem group_vulnerabilities_partition (vs : list Vulnerability) :
  concat (_group_vulnerabilities vs) = sorted vs
  /\ sorted vs ≡ₚ vs
  /\ StronglySorted le_line (sorted vs)
  /\ (forall k, filter (fun x => line x = k) (sorted vs)
                = filter (fun x => line x = k) vs)
  /\ Forall (fun g => g <> [] /\ StronglySorted le_line g /\ chained g)
            (_group_vulnerabilities vs)
  /\ separated (_group_vulnerabilities vs)
  /\ _group_vulnerabilities [] = []
  /\ map (map line) (_group_vulnerabilities (map at_line [10; 12; 15; 30]))
     = [[10; 12; 15]; [30]].
Proof.
  destruct (group_spec vs) as (Hcat & Hg & Hsep).
  split_and!; try done.
  - apply sorted_perm.
  - apply sorted_sorted.
  - intros k. apply sorted_stable.
  - pose proof (sorted_sorted vs) as Hs. rewrite <- Hcat in Hs.
    apply concat_sorted_groups in Hs.
    rewrite Forall_forall in *. intros g Hin.
    destruct (Hg g Hin). split_and!; auto.
Qed.

End Grouping.

(** ** Strings *)

Module Strings.
Import Spec.

Lemma lstrip_blank s : blank s -> lstrip s = [].
Proof.
  unfold blank. induction s as [|c s IH]; simpl; [done|].
  intros [Hc Hs]%andb_prop. rewrite Hc. auto.
Qed.

Lemma blank_rev s : blank s -> blank (rev s).
Proof.
  unfold blank. rewrite !forallb_forall. intros H x Hx.
  apply H. by apply in_rev.
Qed.

Lemma rstrip_blank s : blank s -> rstrip s = [].
Proof. intros H. unfold rstrip. by rewrite lstrip_blank by by apply blank_rev. Qed.

Lemma strip_nil : strip [] = [].
Proof. reflexivity. Qed.

Lemma lstrip_nil_blank s : lstrip s = [] -> blank s.
Proof.
  unfold blank. induction s as [|c s IH]; simpl; [done|].
  destruct (isspace c); [auto|done].
Qed.

Lemma LF_isspace : isspace LF = true.
Proof. reflexivity. Qed.

(** [lstrip] removes a blank prefix and stops at the first other character. *)
Lemma lstrip_app_blank a s : blank a -> lstrip (a ++ s) = lstrip s.
Proof.
  unfold blank. induction a as [|c a IH]; simpl; [done|].
  intros [Hc Ha]%andb_prop. rewrite Hc. auto.
Qed.

Lemma lstrip_fixed c s : isspace c = false -> lstrip (c :: s) = c :: s.
Proof. intros H. simpl. by rewrite H. Qed.

(** A line splits into its blank prefix and its [lstrip]. *)
Lemma lstrip_split s :
  exists a, s = a ++ lstrip s /\ blank a /\ length a = (length s - length (lstrip s))%nat.
Proof.
  induction s as [|c s (a & Hs & Ha & Hl)]; simpl.
  - by exists [].
  - destruct (isspace c) eqn:E.
    + exists (c :: a). split_and!.
      * simpl. by rewrite <- Hs.
      * unfold blank in *. simpl. by rewrite E.
      * simpl. rewrite Hl.
        assert (length (lstrip s) <= length s)%nat.
        { rewrite Hs at 2. rewrite length_app. lia. }
        lia.
    + exists []. split_and!; [done|done|]. simpl. lia.
Qed.

Lemma lstrip_head_not_space s c t : lstrip s = c :: t -> isspace c = false.
Proof.
  induction s as [|d s IH]; simpl; [done|].
  destruct (isspace d) eqn:E; [auto|]. intros; simplify_eq. done.
Qed.

End Strings.

(** ** Patching one unit *)

Module Patching.
Import AIHealer Spec Strings.

Lemma session_eta (st : session) :
  {| modified_lines := modified_lines st; fixed_count := fixed_count st |} = st.
Proof. by destruct st. Qed.

Lemma len_pos_iff {A} (l : list A) : (0 <? len l) = true <-> l <> [].
Proof. unfold len. destruct l; simpl; [done|]. rewrite Z.ltb_lt. split; [done|lia]. Qed.

Lemma significant_iff original_line fixed_content :
  significant original_line fixed_content = true
  <-> candidate original_line fixed_content <> original_line
      /\ strip fixed_content <> [].
Proof.
  unfold significant.
  rewrite andb_true_iff, negb_true_iff, bool_decide_eq_false, len_pos_iff. done.
Qed.

(** What [apply_fix] does with a dict that carries a string payload. *)
Lemma apply_fix_payload st line_idx original_line d proposal :
  assoc (lit "fixed_line") d = Some (JStr proposal) ->
  apply_fix st line_idx original_line (Some (JDict d))
  = if significant original_line (rstrip proposal)
    then Ok {| modified_lines :=
                 <[Z.to_nat line_idx := candidate original_line (rstrip proposal)]>
                   (modified_lines st);
               fixed_count := fixed_count st + 1 |}
    else Ok st.
Proof.
  intros Hd. unfold apply_fix.
  assert (truthy (JDict d) = true) as ->.
  { destruct d; [done|reflexivity]. }
  unfold py_in, getitem. rewrite Hd.
  rewrite bool_decide_eq_true_2 by eauto. reflexivity.
Qed.

Lemma insert_changes {A} (l : list A) (i : nat) (x y : A) :
  l !! i = Some y -> x <> y -> <[i := x]> l <> l.
Proof.
  intros Hy Hne Heq.
  assert (<[i := x]> l !! i = Some x)
    by (apply list_lookup_insert_eq; by eapply lookup_lt_Some).
  rewrite Heq in H. congruence.
Qed.

Section Unit.

Variable post : prompt -> http_reply.
Variable json_loads : str -> option json.

Local Abbreviation query := (_query_llm_for_fix post json_loads).
Local Abbreviation step := (fix_unit post json_loads).

(** A unit whose request has no answer leaves the session as it is. *)
Lemma fix_unit_no_answer st v others :
  (forall l c, query l c v = None) -> step st (v :: others) = Ok st.
Proof.
  intros Hq. unfold fix_unit.
  destruct (_ && _); [|done].
  destruct (modified_lines st !! _); [|done].
  by rewrite Hq.
Qed.

(** C3. For a unit whose target line exists and whose request is answered
    with a dict that carries a string under [fixed_line], the candidate is
    the indentation of the original line, then the proposal without its
    trailing white space, then a line feed; the line is replaced and the
    counter incremented if and only if the candidate differs from the
    original line and the stripped proposal is not empty.  A proposal that
    gives back the original line, or that is only white space, leaves the
    working copy and the counter as they are. *)
Theorem significant_change_filter (st : session) (primary_vuln : Vulnerability)
    (others : list Vulnerability) (original_line : str)
    (d : list (str * json)) (proposal : str) :
  let line_idx := line primary_vuln - 1 in
  let fixed_content := rstrip proposal in
  let fixed_line := _get_indentation original_line ++ fixed_content ++ [LF] in
  let accepted := fixed_line <> original_line /\ strip fixed_content <> [] in
  0 <= line_idx < len (modified_lines st) ->
  modified_lines st !! Z.to_nat line_idx = Some original_line ->
  query original_line (code_context (modified_lines st) line_idx) primary_vuln
    = Some (JDict d) ->
  assoc (lit "fixed_line") d = Some (JStr proposal) ->
  exists st',
    step st (primary_vuln :: others) = Ok st'
    /\ (accepted ->
        st' = {| modified_lines := <[Z.to_nat line_idx := fixed_line]> (modified_lines st);
                 fixed_count := fixed_count st + 1 |})
    /\ (~ accepted -> st' = st)
    /\ (accepted <-> fixed_count st' = fixed_count st + 1)
    /\ (accepted <-> modified_lines st' <> modified_lines st)
    /\ (fixed_line = original_line -> st' = st)
    /\ (blank proposal -> st' = st).
Proof.
  intros line_idx fixed_content fixed_line accepted Hrange Hline Hq Hd.
  unfold fix_unit. fold line_idx.
  assert ((0 <=? line_idx) && (line_idx <? len (modified_lines st)) = true) as ->.
  { apply andb_true_iff. split; [apply Z.leb_le|apply Z.ltb_lt]; lia. }
  rewrite Hline. rewrite Hq.
  rewrite (apply_fix_payload _ _ _ _ _ Hd).
  fold fixed_content.
  pose proof (significant_iff original_line fixed_content) as Hsig.
  change (candidate original_line fixed_content) with fixed_line in *.
  fold accepted in Hsig.
  destruct (significant original_line fixed_content) eqn:E.
  - assert (Ha : accepted) by by apply Hsig.
    eexists; split; [done|]. simpl. split_and!.
    + done.
    + done.
    + done.
    + split; [intros _|done].
      eapply insert_changes; [exact Hline|]. by destruct Ha.
    + intros Heq. by destruct Ha.
    + intros Hb. destruct Ha as [_ Ha]. exfalso. apply Ha.
      unfold fixed_content. by rewrite rstrip_blank.
  - assert (Ha : ~ accepted) by (intros Ha; apply Hsig in Ha; done).
    exists st. split_and!; try done.
    split; [done|lia].
Qed.

End Unit.
End Patching.

(** ** The loop over the units and the write-back *)

Module Pipeline.
Import AIHealer Spec Strings Patching Grouping.

Section Loop.

Variable post : prompt -> http_reply.
Variable json_loads : str -> option json.

Local Abbreviation query := (_query_llm_for_fix post json_loads).
Local Abbreviation step := (fix_unit post json_loads).
Local Abbreviation steps := (fix_units post json_loads).

Lemma service_failed_no_answer l c v :
  service_failed json_loads (post (build_prompt l c v)) -> query l c v = None.
Proof.
  unfold _query_llm_for_fix.
  intros [-> | [-> | [-> | (d & s & -> & Hd & Hs)]]]; try done.
  by rewrite Hd.
Qed.

Lemma fix_units_cons st g gs :
  steps st (g :: gs) = step st g ≫= fun st' => steps st' gs.
Proof. reflexivity. Qed.

Lemma fix_units_no_answer gs : forall st,
  (forall l c v, query l c v = None) -> steps st gs = Ok st.
Proof.
  induction gs as [|g gs IH]; intros st Hq; [done|].
  rewrite fix_units_cons. destruct g as [|v others].
  - simpl. by apply IH.
  - rewrite (fix_unit_no_answer post json_loads st v others) by (intros; apply Hq).
    simpl. by apply IH.
Qed.

Lemma fix_file_unchanged (fs : gmap str str) (file_path : str)
    (vulnerabilities : list Vulnerability) :
  accepted_changes post json_loads fs file_path vulnerabilities = Ok 0
  \/ (forall l c v, query l c v = None) ->
  fix_file post json_loads fs file_path vulnerabilities = Ok fs.
Proof.
  unfold accepted_changes, fix_file, start.
  destruct (fs !! file_path) as [content|]; [|done].
  intros [H | H].
  - destruct (fix_units _ _ _ _) as [st|e]; simpl in *; [|done].
    simplify_eq. unfold finalize. by rewrite H.
  - by rewrite fix_units_no_answer.
Qed.

(** C5. When the loop of [fix_file] ends with a counter of zero, and in
    particular when no request gets an answer, [fix_file] returns the
    file system it was given: the file keeps its content, no backup
    appears and nothing is written. *)
Theorem no_change_no_write (fs : gmap str str) (file_path : str)
    (vulnerabilities : list Vulnerability) :
  accepted_changes post json_loads fs file_path vulnerabilities = Ok 0
  \/ (forall l c v, query l c v = None) ->
  fix_file post json_loads fs file_path vulnerabilities = Ok fs.
Proof. apply fix_file_unchanged. Qed.

(** A unit whose request, if one is made, fails is skipped. *)
Lemma fix_unit_request_failed st g :
  (forall pr, request_of (modified_lines st) g = Some pr ->
     service_failed json_loads (post pr)) ->
  step st g = Ok st.
Proof.
  unfold request_of, fix_unit. destruct g as [|v others]; [done|].
  destruct (_ && _); [|done].
  destruct (modified_lines st !! _) as [L|]; [|done].
  intros H. by rewrite (service_failed_no_answer _ _ _ (H _ eq_refl)).
Qed.

Lemma fix_units_all_skipped gs st :
  (forall g, g ∈ gs -> step st g = Ok st) -> steps st gs = Ok st.
Proof.
  induction gs as [|g gs IH]; intros H; [done|].
  rewrite fix_units_cons, H by by left. simpl. apply IH.
  intros. apply H. by right.
Qed.

(** C8. A transport exception, an HTTP error status, a body that is not
    JSON or a [response] that does not decode makes [_query_llm_for_fix]
    return [None].  When the request that the loop makes for a unit fails
    in one of these ways, the unit is skipped with the session unchanged,
    and the loop goes on: the next unit is processed from the same session.
    [None] is treated like an answer without [fixed_line]: both leave the
    session as it is.  When every request made for a file fails, [fix_file]
    returns the file system unchanged and the loop of [main] goes on: the
    next file is processed by [fix_file] from the same file system. *)
Theorem service_failure_skips_unit (st : session) (g : list Vulnerability)
    (rest : list (list Vulnerability)) :
  (forall pr, request_of (modified_lines st) g = Some pr ->
     service_failed json_loads (post pr)) ->
  (forall l c v, service_failed json_loads (post (build_prompt l c v)) ->
     query l c v = None)
  /\ step st g = Ok st
  /\ steps st (g :: rest) = steps st rest
  /\ (forall g' rest',
        steps st (g :: g' :: rest') = step st g' ≫= fun st' => steps st' rest')
  /\ (forall line_idx original_line d,
        assoc (lit "fixed_line") d = None ->
        apply_fix st line_idx original_line None = Ok st
        /\ apply_fix st line_idx original_line (Some (JDict d)) = Ok st)
  /\ (forall fs file_path content issues files,
        fs !! file_path = Some content ->
        (forall g0 pr, g0 ∈ _group_vulnerabilities issues ->
           request_of (readlines content) g0 = Some pr ->
           service_failed json_loads (post pr)) ->
        fix_file post json_loads fs file_path issues = Ok fs
        /\ heal_files post json_loads fs ((file_path, issues) :: files)
           = heal_files post json_loads fs files
        /\ (forall file_path' issues' files',
              is_Some (fs !! file_path') ->
              heal_files post json_loads fs
                ((file_path, issues) :: (file_path', issues') :: files')
              = fix_file post json_loads fs file_path' issues'
                ≫= fun fs' => heal_files post json_loads fs' files')).
Proof.
  intros Hfail.
  pose proof (fix_unit_request_failed st g Hfail) as Hstep.
  split_and!.
  - intros l c v. apply service_failed_no_answer.
  - done.
  - by rewrite fix_units_cons, Hstep.
  - intros g' rest'. by rewrite fix_units_cons, Hstep.
  - intros line_idx original_line d Hd. split; [done|].
    unfold apply_fix. destruct (truthy (JDict d)); [|done].
    unfold py_in. rewrite Hd. rewrite bool_decide_eq_false_2; [done|].
    by intros [? ?].
  - intros fs file_path content issues files Hfile Hall.
    assert (Hfix : fix_file post json_loads fs file_path issues = Ok fs).
    { unfold fix_file. rewrite Hfile.
      rewrite fix_units_all_skipped; [done|].
      intros g0 Hg0. apply fix_unit_request_failed. intros pr Hpr.
      by apply (Hall g0). }
    split_and!.
    + done.
    + simpl. by rewrite Hfile, Hfix.
    + intros file_path' issues' files' [c' Hc'].
      simpl. rewrite Hfile, Hfix. simpl. by rewrite Hc'.
Qed.

End Loop.
End Pipeline.

(** ** What the loop changes in the working copy *)

Module Invariants.
Import AIHealer Spec Strings Patching Grouping Pipeline.

Lemma diff_count_refl a : diff_count a a = 0.
Proof. induction a as [|x a IH]; simpl; [done|]. rewrite decide_True by done. lia. Qed.

Lemma diff_count_insert a : forall (t : nat) (x y : str),
  a !! t = Some y -> x <> y -> diff_count a (<[t := x]> a) = 1.
Proof.
  induction a as [|z a IH]; intros [|t] x y Ht Hne; simplify_eq/=.
  - rewrite decide_False by done. rewrite diff_count_refl. lia.
  - rewrite decide_True by done. by rewrite (IH t x y).
Qed.

Lemma diff_count_trans a : forall b c,
  length a = length b -> length b = length c ->
  (forall i : nat, a !! i = b !! i \/ b !! i = c !! i) ->
  diff_count a c = diff_count a b + diff_count b c.
Proof.
  induction a as [|x a IH]; intros [|y b] [|z c] Hab Hbc H; simplify_eq/=; try done.
  rewrite (IH b c) by (try done; intros i; apply (H (S i))).
  destruct (H 0%nat) as [E | E]; simplify_eq/=; repeat case_decide; try done; lia.
Qed.

Lemma primary_lines_cons g gs :
  primary_lines (g :: gs)
  = match g with [] => [] | v :: _ => [line v] end ++ primary_lines gs.
Proof. reflexivity. Qed.

Lemma primary_lines_elem gs g v :
  g ∈ gs -> head g = Some v -> line v ∈ primary_lines gs.
Proof.
  intros Hg Hv. unfold primary_lines. apply list_elem_of_In, in_flat_map.
  exists g. split; [by apply list_elem_of_In|].
  destruct g; simplify_eq/=. by left.
Qed.

Section Loop.

Variable post : prompt -> http_reply.
Variable json_loads : str -> option json.

Local Abbreviation query := (_query_llm_for_fix post json_loads).
Local Abbreviation step := (fix_unit post json_loads).
Local Abbreviation steps := (fix_units post json_loads).

(** One turn of the loop either leaves the session as it is or replaces
    the target line by a significant candidate and counts it. *)
Lemma fix_unit_cases st g st' :
  step st g = Ok st' ->
  st' = st
  \/ exists v others L j p,
       g = v :: others
       /\ 0 <= line v - 1 < len (modified_lines st)
       /\ modified_lines st !! Z.to_nat (line v - 1) = Some L
       /\ query L (code_context (modified_lines st) (line v - 1)) v = Some j
       /\ getitem (lit "fixed_line") j = Ok (JStr p)
       /\ significant L (rstrip p) = true
       /\ st' = {| modified_lines :=
                     <[Z.to_nat (line v - 1) := candidate L (rstrip p)]>
                       (modified_lines st);
                   fixed_count := fixed_count st + 1 |}.
Proof.
  unfold fix_unit. destruct g as [|v others]; [intros; simplify_eq; by left|].
  destruct (_ && _) eqn:Hr; [|intros; simplify_eq; by left].
  apply andb_true_iff in Hr as [H0%Z.leb_le H1%Z.ltb_lt].
  destruct (modified_lines st !! _) as [L|] eqn:HL; [|intros; simplify_eq; by left].
  unfold apply_fix.
  destruct (query _ _ _) as [j|] eqn:Hq; [|intros; simplify_eq; by left].
  destruct (truthy j); [|intros; simplify_eq; by left].
  destruct (py_in _ j) as [[]|] eqn:Hin; simpl; [|intros; simplify_eq; by left|done].
  destruct (getitem _ j) as [payload|] eqn:Hget; simpl; [|done].
  destruct payload as [| | | |p| |]; simpl; try done.
  destruct (significant L (rstrip p)) eqn:Hs; [|intros; simplify_eq; by left].
  intros; simplify_eq. right. exists v, others, L, j, p. split_and!; try done; lia.
Qed.

Lemma candidate_differs L c : significant L c = true -> candidate L c <> L.
Proof. intros H. by apply significant_iff in H as [? _]. Qed.

(** The loop keeps the number of entries; an entry that it changes is the
    target of a unit and now holds a significant candidate for the line
    that was there; the counter grows by the number of changed entries. *)
Lemma fix_units_inv gs : forall st st',
  steps st gs = Ok st' -> NoDup (primary_lines gs) ->
  length (modified_lines st') = length (modified_lines st)
  /\ (forall i : nat, modified_lines st' !! i <> modified_lines st !! i ->
        exists g L c, g ∈ gs /\ target_of g i
          /\ proposed post json_loads g c
          /\ modified_lines st !! i = Some L /\ significant L c = true
          /\ modified_lines st' !! i = Some (candidate L c))
  /\ fixed_count st' = fixed_count st
                       + diff_count (modified_lines st) (modified_lines st').
Proof.
  induction gs as [|g gs IH]; intros st st' Hrun Hnd.
  { simpl in Hrun. simplify_eq. rewrite diff_count_refl.
    split_and!; [done|done|lia]. }
  rewrite fix_units_cons in Hrun.
  destruct (step st g) as [st1|] eqn:Hstep; [|done]. simpl in Hrun.
  rewrite primary_lines_cons in Hnd. apply NoDup_app in Hnd as (_ & Hfresh & Hnd).
  destruct (IH _ _ Hrun Hnd) as (Hlen & Hch & Hcnt).
  apply fix_unit_cases in Hstep
    as [-> | (v & others & L & j & p & -> & Hr & HL & Hq & Hget & Hsig & ->)].
  { split_and!; [done| |done].
    intros i Hi. destruct (Hch i Hi) as (g' & L & c & ? & ?).
    exists g', L, c. split; [by right|done]. }
  simpl in *. set (t := Z.to_nat (line v - 1)) in *.
  set (ml := modified_lines st) in *. set (ml' := modified_lines st') in *.
  assert (Ht : ml' !! t = Some (candidate L (rstrip p))).
  { destruct (decide (ml' !! t = <[t := candidate L (rstrip p)]> ml !! t)) as [E|E].
    - rewrite E. apply list_lookup_insert_eq. by eapply lookup_lt_Some.
    - destruct (Hch t E) as (g' & ? & ? & Hg' & (v' & Hv' & Hl') & _).
      exfalso. apply (Hfresh (line v)); [by left|].
      replace (line v) with (line v') by (unfold t in Hl'; lia).
      by eapply primary_lines_elem. }
  rewrite length_insert in Hlen.
  split_and!.
  - done.
  - intros i Hi. destruct (decide (i = t)) as [->|Hne].
    + exists (v :: others), L, (rstrip p). split_and!; try done; [by left| |].
      * exists v. split; [done|]. unfold t. lia.
      * exists v, L, (code_context ml (line v - 1)), j, p. done.
    + assert (Hsame : <[t := candidate L (rstrip p)]> ml !! i = ml !! i)
        by by apply list_lookup_insert_ne.
      rewrite <- Hsame in Hi.
      destruct (Hch i Hi) as (g' & L' & c' & ? & ? & ? & HL' & ? & ?).
      rewrite Hsame in HL'.
      exists g', L', c'. split_and!; try done. by right.
  - rewrite Hcnt.
    rewrite (diff_count_trans ml (<[t := candidate L (rstrip p)]> ml) ml').
    + rewrite (diff_count_insert ml t _ L HL) by by apply candidate_differs. lia.
    + by rewrite length_insert.
    + by rewrite length_insert.
    + intros i. destruct (decide (i = t)) as [->|Hne].
      * right. rewrite Ht. apply list_lookup_insert_eq. by eapply lookup_lt_Some.
      * left. symmetry. by apply list_lookup_insert_ne.
Qed.

End Loop.
End Invariants.

(** ** The units of one file have distinct target lines *)

Module Targets.
Import AIHealer Spec Grouping Invariants.

Lemma separated_tail g gs : separated (g :: gs) -> separated gs.
Proof. intros H i g1 g2 H1 H2. by apply (H (S i)). Qed.

Lemma head_le_last (g : list Vulnerability) v a :
  StronglySorted le_line g -> head g = Some v -> last g = Some a ->
  line v <= line a.
Proof.
  destruct g as [|w g]; intros Hs Hv Ha; simplify_eq/=.
  apply StronglySorted_inv in Hs as [_ Hall].
  destruct g as [|x g]; simplify_eq/=; [lia|].
  rewrite Forall_forall in Hall. apply Hall.
  by apply last_Some_elem_of.
Qed.

Lemma primary_lines_sorted gs :
  Forall good_group gs -> Forall (StronglySorted le_line) gs -> separated gs ->
  Sorted Z.lt (primary_lines gs).
Proof.
  induction gs as [|g gs IH]; intros Hg Hs Hsep; [constructor|].
  apply Forall_cons in Hg as [[Hne _] Hg]. apply Forall_cons in Hs as [Hsg Hs].
  destruct g as [|v others]; [done|].
  rewrite primary_lines_cons. simpl. constructor.
  - apply IH; [done|done|by eapply separated_tail].
  - destruct gs as [|g2 gs]; [constructor|].
    apply Forall_cons in Hg as [[Hne2 _] _].
    destruct g2 as [|v2 others2]; [done|].
    rewrite primary_lines_cons. simpl. constructor.
    destruct (last (v :: others)) as [a|] eqn:Ha.
    + assert (3 < line v2 - line a) by (by apply (Hsep 0%nat (v :: others) (v2 :: others2))).
      pose proof (head_le_last (v :: others) v a Hsg eq_refl Ha). lia.
    + by apply last_None in Ha.
Qed.

Lemma lt_sorted_NoDup (l : list Z) : Sorted Z.lt l -> NoDup l.
Proof.
  intros Hs. apply Sorted_StronglySorted in Hs; [|intros ???; lia].
  induction Hs as [|x l Hs IH Hall]; constructor; [|done].
  intros Hin. rewrite Forall_forall in Hall.
  specialize (Hall x Hin). lia.
Qed.

(** No two units of [_group_vulnerabilities] have the same primary line. *)
Lemma group_targets_distinct vs : NoDup (primary_lines (_group_vulnerabilities vs)).
Proof.
  destruct (group_spec vs) as (Hcat & Hg & Hsep).
  apply lt_sorted_NoDup, primary_lines_sorted; [done| |done].
  apply concat_sorted_groups. rewrite Hcat. apply sorted_sorted.
Qed.

(** The primary finding of a unit is its lowest line. *)
Lemma primary_is_lowest vs g p v :
  g ∈ _group_vulnerabilities vs -> head g = Some p -> v ∈ g -> line p <= line v.
Proof.
  intros Hg Hp Hv.
  destruct (group_spec vs) as (Hcat & _ & _).
  pose proof (sorted_sorted vs) as Hs. rewrite <- Hcat in Hs.
  apply concat_sorted_groups in Hs. rewrite Forall_forall in Hs.
  specialize (Hs g Hg).
  destruct g as [|w g]; simplify_eq/=.
  apply StronglySorted_inv in Hs as [_ Hall].
  apply elem_of_cons in Hv as [->|Hv]; [lia|].
  rewrite Forall_forall in Hall. by apply Hall.
Qed.

End Targets.

(** ** Reading back what was written *)

Module Lines.
Import AIHealer Spec Strings.

Lemma eqb_LF c : Ascii.eqb c LF = true <-> c = LF.
Proof. apply Ascii.eqb_eq. Qed.

Lemma split_lines_concat_id s : concat (split_lines s) = s.
Proof.
  induction s as [|c s IH]; simpl; [done|].
  destruct (Ascii.eqb c LF); simpl; [by rewrite IH|].
  destruct (split_lines s) as [|l ls]; simpl in *; by rewrite <- IH.
Qed.

Lemma terminated_cons c l : c <> LF -> terminated l -> terminated (c :: l).
Proof.
  intros Hc (body & -> & Hb). exists (c :: body). split; [done|].
  rewrite not_elem_of_cons. split; [congruence|done].
Qed.

Lemma unterminated_cons c l : c <> LF -> LF ∉ l -> unterminated (c :: l).
Proof. intros Hc Hl. split; [done|]. rewrite not_elem_of_cons. split; [congruence|done]. Qed.

Lemma split_lines_proper s : proper_lines (split_lines s).
Proof.
  induction s as [|c s IH]; simpl; [done|].
  destruct (Ascii.eqb c LF) eqn:E.
  - apply eqb_LF in E as ->.
    assert (terminated [LF]) by (exists []; split; [done|apply not_elem_of_nil]).
    simpl. destruct (split_lines s); [by left|done].
  - assert (c <> LF) by (intros ->; by rewrite Ascii.eqb_refl in E).
    destruct (split_lines s) as [|l ls]; simpl in *.
    + right. apply unterminated_cons; [done|apply not_elem_of_nil].
    + destruct ls as [|l' ls].
      * destruct IH as [Ht | [_ Hu]]; [left; by apply terminated_cons|].
        right. by apply unterminated_cons.
      * destruct IH as [Ht Hp]. split; [by apply terminated_cons|done].
Qed.

Lemma split_lines_terminated l s :
  terminated l -> split_lines (l ++ s) = l :: split_lines s.
Proof.
  intros (body & -> & Hb). induction body as [|c body IH]; simpl.
  - done.
  - apply not_elem_of_cons in Hb as [Hc Hb].
    destruct (Ascii.eqb c LF) eqn:E; [apply eqb_LF in E; congruence|].
    by rewrite IH.
Qed.

Lemma split_lines_unterminated l : unterminated l -> split_lines l = [l].
Proof.
  intros [Hne Hl]. induction l as [|c l IH]; [done|]. simpl.
  apply not_elem_of_cons in Hl as [Hc Hl].
  destruct (Ascii.eqb c LF) eqn:E; [apply eqb_LF in E; congruence|].
  destruct l as [|d l]; [done|]. by rewrite IH.
Qed.

(** Writing entries of that shape and reading them again gives them back. *)
Lemma split_lines_concat ls : proper_lines ls -> split_lines (concat ls) = ls.
Proof.
  induction ls as [|l ls IH]; [done|]. simpl. intros H.
  destruct ls as [|l' ls].
  - simpl. rewrite app_nil_r. destruct H as [Ht | Hu].
    + rewrite <- (app_nil_r l) at 1. by rewrite split_lines_terminated.
    + by apply split_lines_unterminated.
  - destruct H as [Ht Hp]. rewrite split_lines_terminated by done. by rewrite IH.
Qed.

Lemma proper_lines_ext ls : forall ls',
  proper_lines ls -> length ls' = length ls ->
  (forall i : nat, ls' !! i = ls !! i \/ exists x, ls' !! i = Some x /\ terminated x) ->
  proper_lines ls'.
Proof.
  induction ls as [|l ls IH]; intros [|l' ls'] Hp Hlen H; try done.
  assert (Htail : forall i : nat,
    ls' !! i = ls !! i \/ exists x, ls' !! i = Some x /\ terminated x)
    by (intros i; apply (H (S i))).
  assert (Hlen' : length ls' = length ls) by (simpl in Hlen; lia).
  assert (Hhead : l' = l \/ terminated l').
  { destruct (H 0%nat) as [E | (x & E & Hx)]; simplify_eq/=; auto. }
  destruct ls as [|m ls]; destruct ls' as [|m' ls']; try done.
  - change (terminated l' \/ unterminated l').
    change (terminated l \/ unterminated l) in Hp.
    destruct Hhead as [-> | ?]; [done|by left].
  - change (terminated l' /\ proper_lines (m' :: ls')).
    change (terminated l /\ proper_lines (m :: ls)) in Hp.
    destruct Hp as [Ht Hp]. split; [|by apply IH].
    by destruct Hhead as [-> | ?].
Qed.

Lemma universal_newlines_id_aux (n : nat) : forall s,
  (length s <= n)%nat -> CR ∉ s -> universal_newlines s = s.
Proof.
  induction n as [|n IH]; intros [|c s] Hn Hs; simpl in *; try done; [lia|].
  apply not_elem_of_cons in Hs as [Hc Hs].
  destruct (Ascii.eqb c CR) eqn:E; [apply Ascii.eqb_eq in E; congruence|].
  rewrite IH; [done|lia|done].
Qed.

(** A text without carriage return is read as it is. *)
Lemma universal_newlines_id s : CR ∉ s -> universal_newlines s = s.
Proof. by apply (universal_newlines_id_aux (length s)). Qed.

Lemma universal_newlines_no_cr_aux (n : nat) : forall s,
  (length s <= n)%nat -> CR ∉ universal_newlines s.
Proof.
  induction n as [|n IH]; intros [|c s] Hn; simpl in *;
    try apply not_elem_of_nil; [lia|].
  destruct (Ascii.eqb c CR) eqn:E.
  - apply not_elem_of_cons. split; [done|].
    destruct s as [|d s]; [apply not_elem_of_nil|].
    simpl in Hn. destruct (Ascii.eqb d LF); apply IH; simpl; lia.
  - apply not_elem_of_cons. split; [|apply IH; lia].
    intros <-. by rewrite Ascii.eqb_refl in E.
Qed.

Lemma universal_newlines_no_cr s : CR ∉ universal_newlines s.
Proof. by apply (universal_newlines_no_cr_aux (length s)). Qed.


Lemma readlines_proper content : proper_lines (readlines content).
Proof. apply split_lines_proper. Qed.

Lemma readlines_no_cr content l : l ∈ readlines content -> CR ∉ l.
Proof.
  intros Hl Hcr. apply (universal_newlines_no_cr content).
  rewrite <- (split_lines_concat_id (universal_newlines content)).
  apply list_elem_of_In, in_concat. exists l. by rewrite <- !list_elem_of_In.
Qed.

(** What was written from entries of the shape of [readlines], none with a
    carriage return, is read back as these entries. *)
Lemma readlines_writelines ls :
  proper_lines ls -> (forall l, l ∈ ls -> CR ∉ l) -> readlines (writelines ls) = ls.
Proof.
  intros Hp Hcr. unfold readlines, writelines.
  rewrite universal_newlines_id; [by apply split_lines_concat|].
  intros Hin. apply list_elem_of_In, in_concat in Hin as (l & Hl & Hc).
  apply (Hcr l); by apply list_elem_of_In.
Qed.

(** The indentation of a line that is not blank is its blank prefix. *)
Lemma get_indentation_prefix L :
  ~ blank L ->
  exists a c t, L = a ++ c :: t /\ blank a /\ isspace c = false
                /\ _get_indentation L = a.
Proof.
  intros Hnb. destruct (lstrip_split L) as (a & HL & Ha & Hlen).
  destruct (lstrip L) as [|c t] eqn:Hs.
  { exfalso. apply Hnb. by apply lstrip_nil_blank. }
  pose proof (lstrip_head_not_space _ _ _ Hs) as Hc.
  exists a, c, t. split_and!; try done.
  unfold _get_indentation. rewrite Hs.
  rewrite bool_decide_eq_false_2 by done.
  rewrite bool_decide_eq_false_2
    by (intros ?; simplify_eq; by rewrite LF_isspace in Hc).
  simpl orb. cbv iota. rewrite <- Hlen. clear Hlen Hs Hnb.
  subst L. by rewrite take_app_length.
Qed.

End Lines.

(** ** Unlocated findings, and the write-back *)

Module WriteBack.
Import AIHealer Spec Strings Patching Grouping Pipeline Invariants Targets Lines.

(** C2, as the specification states it, fails: a finding with line 0 is
    grouped like any other. *)
Lemma unlocated_finding_is_grouped :
  ~ (forall vs g v, g ∈ _group_vulnerabilities vs -> v ∈ g -> line v <> 0).
Proof.
  intros H.
  apply (H [at_line 0] [at_line 0] (at_line 0)); [|by left|done].
  vm_compute. by left.
Qed.

Section Files.

Variable post : prompt -> http_reply.
Variable json_loads : str -> option json.

Local Abbreviation step := (fix_unit post json_loads).
Local Abbreviation steps := (fix_units post json_loads).

Lemma fix_unit_unlocated st p others :
  line p <= 0 -> step st (p :: others) = Ok st.
Proof.
  intros Hp. unfold fix_unit.
  assert ((0 <=? line p - 1) = false) as -> by (apply Z.leb_gt; lia). done.
Qed.

Lemma fix_units_skipped gs st :
  (forall g, g ∈ gs -> step st g = Ok st) -> steps st gs = Ok st.
Proof.
  induction gs as [|g gs IH]; intros H; [done|].
  rewrite fix_units_cons, H by by left. simpl. apply IH.
  intros. apply H. by right.
Qed.

Lemma grouped_member vs g v : g ∈ _group_vulnerabilities vs -> v ∈ g -> v ∈ vs.
Proof.
  intros Hg Hv. destruct (group_spec vs) as (Hcat & _ & _).
  rewrite <- (sorted_perm vs), <- Hcat.
  apply list_elem_of_In, in_concat. exists g. by rewrite <- !list_elem_of_In.
Qed.

(** C2, amended. A finding with line 0 is not removed before the grouping:
    it is a member of a unit.  The primary finding of that unit has a line
    of 0 or less, so the bounds test skips the unit: no request is made and
    the session stays as it is.  When every finding of a file has line 0
    the file system is returned unchanged. *)
Theorem unlocated_finding_never_patched (vs : list Vulnerability)
    (v : Vulnerability) :
  v ∈ vs -> line v = 0 ->
  (exists g, g ∈ _group_vulnerabilities vs /\ v ∈ g)
  /\ (forall g, g ∈ _group_vulnerabilities vs -> v ∈ g ->
        (exists p, head g = Some p /\ line p <= 0)
        /\ forall st, step st g = Ok st)
  /\ ((forall w, w ∈ vs -> line w = 0) ->
      forall fs file_path, fix_file post json_loads fs file_path vs = Ok fs).
Proof.
  intros Hv H0. split_and!.
  - destruct (group_spec vs) as (Hcat & _ & _).
    assert (Hin : v ∈ concat (_group_vulnerabilities vs))
      by (by rewrite Hcat, sorted_perm).
    apply list_elem_of_In, in_concat in Hin as (g & Hg & Hvg).
    exists g. by rewrite !list_elem_of_In.
  - intros g Hg Hvg. destruct g as [|p others]; [by apply elem_of_nil in Hvg|].
    pose proof (primary_is_lowest vs _ p v Hg eq_refl Hvg) as Hp.
    split; [exists p; split; [done|lia]|].
    intros st. apply fix_unit_unlocated. lia.
  - intros Hall fs file_path. unfold fix_file.
    destruct (fs !! file_path) as [content|]; [|done].
    rewrite fix_units_skipped; [done|].
    intros g Hg. destruct g as [|p others]; [done|].
    apply fix_unit_unlocated.
    rewrite (Hall p); [lia|]. eapply grouped_member; [exact Hg|by left].
Qed.




End Files.
End WriteBack.

(** ** The line count of the file *)

Module LineCount.
Import AIHealer Spec Strings Patching Invariants WriteBack Lines Samples.

Lemma inner_of_terminated (l1 l2 body : str) x y :
  l2 <> [] -> l1 ++ x :: l2 = body ++ [y] -> x ∈ body.
Proof.
  intros Hne Heq. destruct (exists_last Hne) as (l2' & z & ->).
  change (l1 ++ x :: l2' ++ [z]) with (l1 ++ (x :: l2') ++ [z]) in Heq.
  rewrite app_assoc in Heq. apply app_inj_tail in Heq as [<- _].
  apply elem_of_app. right. by left.
Qed.

Lemma indentation_no_LF (a : str) c t :
  terminated (a ++ c :: t) \/ unterminated (a ++ c :: t) -> LF ∉ a.
Proof.
  intros [(body & Heq & Hb) | [_ Hu]] Hin.
  - apply list_elem_of_split in Hin as (a1 & a2 & ->).
    apply Hb. rewrite <- app_assoc in Heq. simpl in Heq.
    eapply inner_of_terminated; [|exact Heq]. by destruct a2.
  - apply Hu. apply elem_of_app. by left.
Qed.

(** The candidate for a line that is not blank, with a proposal that has
    no line feed, is one line with its line feed. *)
Lemma candidate_terminated L c :
  terminated L \/ unterminated L -> ~ blank L -> LF ∉ c ->
  terminated (candidate L c).
Proof.
  intros HL Hnb Hc.
  destruct (get_indentation_prefix L Hnb) as (a & ch & t & -> & Ha & Hch & Hind).
  unfold candidate. rewrite Hind. exists (a ++ c). split; [by rewrite app_assoc|].
  rewrite not_elem_of_app. split; [by eapply indentation_no_LF|done].
Qed.


Section Count.

Variable post : prompt -> http_reply.
Variable json_loads : str -> option json.


End Count.
End LineCount.

(** ** Running the pipeline a second time *)

Module Idempotence.
Import AIHealer Spec Strings Patching Grouping Pipeline Invariants Targets.
Import WriteBack Lines LineCount Samples.

Lemma apply_fix_decision st idx L fd :
  apply_fix st idx L fd
  = r ← decision L fd;
    Ok (match r with
        | Some x => {| modified_lines := <[Z.to_nat idx := x]> (modified_lines st);
                       fixed_count := fixed_count st + 1 |}
        | None => st
        end).
Proof.
  unfold apply_fix, decision. destruct fd as [j|]; [|done].
  destruct (truthy j); [|done].
  destruct (py_in _ j) as [[]|]; simpl; try done.
  destruct (getitem _ j) as [payload|]; simpl; [|done].
  destruct (rstrip_of payload) as [c|]; simpl; [|done].
  by destruct (significant L c).
Qed.

Lemma decision_inv L j x :
  decision L (Some j) = Ok (Some x) ->
  exists p, getitem (lit "fixed_line") j = Ok (JStr p)
            /\ significant L (rstrip p) = true
            /\ x = candidate L (rstrip p).
Proof.
  unfold decision. destruct (truthy j); [|done].
  destruct (py_in _ j) as [[]|]; simpl; try done.
  destruct (getitem _ j) as [payload|]; simpl; [|done].
  destruct payload as [| | | |p| |]; simpl; try done.
  destruct (significant L (rstrip p)) eqn:E; [|done].
  intros; simplify_eq. by exists p.
Qed.

Lemma get_indentation_app (a : str) d s :
  blank a -> isspace d = false -> _get_indentation (a ++ d :: s) = a.
Proof.
  intros Ha Hd. unfold _get_indentation.
  rewrite (lstrip_app_blank a (d :: s) Ha), (lstrip_fixed d s Hd).
  rewrite bool_decide_eq_false_2 by done.
  rewrite bool_decide_eq_false_2
    by (intros ?; simplify_eq; by rewrite LF_isspace in Hd).
  simpl orb. cbv iota.
  replace (length (a ++ d :: s) - length (d :: s))%nat with (length a)
    by (rewrite length_app; lia).
  by rewrite take_app_length.
Qed.

Lemma lstrip_length s : (length (lstrip s) <= length s)%nat.
Proof.
  induction s as [|c s IH]; simpl; [done|]. destruct (isspace c); simpl; lia.
Qed.

Lemma lstrip_id_head d s : lstrip (d :: s) = d :: s -> isspace d = false.
Proof.
  simpl. destruct (isspace d); [|done]. intros H.
  pose proof (lstrip_length s) as Hl. rewrite H in Hl. simpl in Hl. lia.
Qed.

(** The candidate has the indentation of the line it replaces. *)
Lemma get_indentation_candidate L c :
  ~ blank L -> lstrip c = c -> c <> [] ->
  _get_indentation (candidate L c) = _get_indentation L.
Proof.
  intros Hnb Hc Hne.
  destruct (get_indentation_prefix L Hnb) as (a & ch & t & -> & Ha & Hch & Hind).
  unfold candidate. rewrite Hind.
  destruct c as [|d c]; [done|]. simpl.
  apply get_indentation_app; [done|by apply (lstrip_id_head d c)].
Qed.

(** A line that was replaced is not replaced again by the same answer. *)
Lemma decision_stable L fd x :
  ~ blank L ->
  (forall j p, fd = Some j -> getitem (lit "fixed_line") j = Ok (JStr p) ->
     lstrip (rstrip p) = rstrip p) ->
  decision L fd = Ok (Some x) -> decision x fd = Ok None.
Proof.
  intros Hnb Hclean Hd. destruct fd as [j|]; [|done].
  pose proof Hd as Hd'. apply decision_inv in Hd' as (p & Hget & Hsig & ->).
  assert (Hc : lstrip (rstrip p) = rstrip p) by by eapply Hclean.
  revert Hd. unfold decision. destruct (truthy j); [|done].
  destruct (py_in _ j) as [[]|]; simpl; try done.
  rewrite Hget. simpl. rewrite Hsig. intros _.
  assert (significant (candidate L (rstrip p)) (rstrip p) = false) as ->; [|done].
  unfold significant. apply andb_false_iff. left.
  apply negb_false_iff, bool_decide_eq_true.
  unfold candidate at 1. rewrite get_indentation_candidate; try done.
  apply significant_iff in Hsig as [_ Hs]. intros E. rewrite E in Hs. done.
Qed.

Lemma diff_count_nonneg a : forall b, 0 <= diff_count a b.
Proof.
  induction a as [|x a IH]; intros [|y b]; simpl; try done.
  specialize (IH b). case_decide; lia.
Qed.

Lemma proper_lines_lookup ls : forall (i : nat) l,
  proper_lines ls -> ls !! i = Some l -> terminated l \/ unterminated l.
Proof.
  induction ls as [|m ls IH]; intros [|i] l Hp Hl; simplify_eq/=.
  - destruct ls; [done|]. left. by destruct Hp.
  - destruct ls as [|m' ls]; [done|]. destruct Hp as [_ Hp]. by eapply IH.
Qed.

Section Twice.

Variable post : prompt -> http_reply.
Variable json_loads : str -> option json.

Local Abbreviation query := (_query_llm_for_fix post json_loads).
Local Abbreviation step := (fix_unit post json_loads).
Local Abbreviation steps := (fix_units post json_loads).

(** The answer depends on the finding only. *)
Hypothesis Hdet : forall l c l' c' v, query l c v = query l' c' v.

Lemma fix_unit_decision st v o (t : nat) L :
  line v - 1 = Z.of_nat t -> modified_lines st !! t = Some L ->
  step st (v :: o)
  = r ← decision L (query [] [] v);
    Ok (match r with
        | Some x => {| modified_lines := <[t := x]> (modified_lines st);
                       fixed_count := fixed_count st + 1 |}
        | None => st
        end).
Proof.
  intros Hv HL. unfold fix_unit. rewrite Hv, Nat2Z.id, HL.
  assert ((0 <=? Z.of_nat t) && (Z.of_nat t <? len (modified_lines st)) = true) as ->.
  { apply lookup_lt_Some in HL. unfold len.
    apply andb_true_iff. split; [apply Z.leb_le|apply Z.ltb_lt]; lia. }
  rewrite (Hdet _ _ [] [] v), apply_fix_decision. by rewrite Nat2Z.id.
Qed.

Lemma fix_unit_frame st g st' (i : nat) :
  step st g = Ok st' -> ~ target_of g i ->
  modified_lines st' !! i = modified_lines st !! i.
Proof.
  intros H Hi.
  apply fix_unit_cases in H
    as [-> | (v & o & L & j & p & -> & Hr & _ & _ & _ & _ & ->)]; [done|].
  simpl. apply list_lookup_insert_ne. intros <-. apply Hi.
  exists v. split; [done|lia].
Qed.

Lemma fix_units_frame gs st st' (i : nat) :
  steps st gs = Ok st' -> NoDup (primary_lines gs) ->
  (forall g, g ∈ gs -> ~ target_of g i) ->
  modified_lines st' !! i = modified_lines st !! i.
Proof.
  intros Hrun Hnd Hi.
  destruct (fix_units_inv post json_loads gs st st' Hrun Hnd) as (_ & Hch & _).
  destruct (decide (modified_lines st' !! i = modified_lines st !! i)) as [E|E];
    [done|].
  destruct (Hch i E) as (g & _ & _ & Hg & Ht & _). by destruct (Hi g Hg).
Qed.

Lemma other_target gs v (t : nat) g :
  line v ∉ primary_lines gs -> line v - 1 = Z.of_nat t -> g ∈ gs ->
  ~ target_of g t.
Proof.
  intros Hfresh Hv Hg (w & Hw & Hl). apply Hfresh.
  replace (line v) with (line w) by lia. by eapply primary_lines_elem.
Qed.

(** What the loop leaves at the target of each unit: the line that was
    there when the answer declines or changes nothing, the candidate
    otherwise. *)
Lemma fix_units_final gs : forall st st',
  steps st gs = Ok st' -> NoDup (primary_lines gs) ->
  forall v o (t : nat) L,
    (v :: o) ∈ gs -> line v - 1 = Z.of_nat t ->
    modified_lines st !! t = Some L ->
    (decision L (query [] [] v) = Ok None /\ modified_lines st' !! t = Some L)
    \/ (exists x, decision L (query [] [] v) = Ok (Some x)
                 /\ modified_lines st' !! t = Some x).
Proof.
  induction gs as [|g gs IH]; intros st st' Hrun Hnd v o t L Hin Hv HL.
  { by apply elem_of_nil in Hin. }
  rewrite fix_units_cons in Hrun.
  destruct (step st g) as [st1|] eqn:Hstep; [|done]. simpl in Hrun.
  rewrite primary_lines_cons in Hnd. apply NoDup_app in Hnd as (_ & Hfresh & Hnd).
  apply elem_of_cons in Hin as [<- | Hin].
  - assert (Hkeep : modified_lines st' !! t = modified_lines st1 !! t).
    { eapply fix_units_frame; [exact Hrun|exact Hnd|].
      intros g' Hg'. eapply other_target; [|exact Hv|exact Hg'].
      apply Hfresh. by left. }
    rewrite (fix_unit_decision st v o t L Hv HL) in Hstep.
    destruct (decision L (query [] [] v)) as [[x|]|]; simpl in Hstep; simplify_eq.
    + right. exists x. split; [done|]. rewrite Hkeep. simpl.
      apply list_lookup_insert_eq. by eapply lookup_lt_Some.
    + left. split; [done|]. by rewrite Hkeep.
  - eapply IH; try done.
    rewrite <- HL. eapply fix_unit_frame; [exact Hstep|].
    intros (w & Hw & Hl). destruct g as [|w' o']; simplify_eq/=.
    apply (Hfresh (line w)); [by left|].
    replace (line w) with (line v) by lia.
    by eapply (primary_lines_elem gs (v :: o)).
Qed.

Section Runs.

Variable vs : list Vulnerability.
Variable content : str.
Variable st : session.

Local Abbreviation gs := (_group_vulnerabilities vs).

(** Every proposal is clean, and no target line is blank. *)
Hypothesis Hclean : forall l c v j p,
  query l c v = Some j -> getitem (lit "fixed_line") j = Ok (JStr p) ->
  clean (rstrip p).
Hypothesis Hnonblank : forall g (i : nat) L,
  g ∈ gs -> target_of g i -> readlines content !! i = Some L -> ~ blank L.
Hypothesis Hrun : steps (start content) gs = Ok st.

Lemma first_run_entries (i : nat) :
  modified_lines st !! i = readlines content !! i
  \/ exists L c, readlines content !! i = Some L /\ ~ blank L /\ clean c
                 /\ modified_lines st !! i = Some (candidate L c).
Proof.
  destruct (fix_units_inv post json_loads _ _ _ Hrun (group_targets_distinct vs))
    as (_ & Hch & _).
  destruct (decide (modified_lines st !! i = readlines content !! i)) as [E|E];
    [by left|right].
  destruct (Hch i E) as (g & L & c & Hg & Ht & Hp & HL & _ & Hc).
  exists L, c. split_and!; try done; [by eapply Hnonblank|].
  destruct Hp as (v & l & ctx & j & p & _ & Hq & Hget & ->). by eapply Hclean.
Qed.

Lemma first_run_length :
  length (modified_lines st) = length (readlines content).
Proof.
  by destruct (fix_units_inv post json_loads _ _ _ Hrun (group_targets_distinct vs))
    as (? & _ & _).
Qed.

Lemma first_run_proper : proper_lines (modified_lines st).
Proof.
  apply (proper_lines_ext (readlines content));
    [apply readlines_proper|apply first_run_length|].
  intros i. destruct (first_run_entries i) as [E | (L & c & HL & Hnb & Hc & E)];
    [by left|right].
  eexists; split; [exact E|].
  apply candidate_terminated; [|done|by destruct Hc as (_ & ? & _)].
  eapply proper_lines_lookup; [apply readlines_proper|exact HL].
Qed.

Lemma first_run_no_cr l : l ∈ modified_lines st -> CR ∉ l.
Proof.
  intros [i Hi]%list_elem_of_lookup.
  destruct (first_run_entries i) as [E | (L & c & HL & Hnb & Hc & E)].
  - apply (readlines_no_cr content). apply list_elem_of_lookup. exists i. congruence.
  - rewrite E in Hi. simplify_eq.
    assert (HcrL : CR ∉ L).
    { apply (readlines_no_cr content). apply list_elem_of_lookup. by exists i. }
    destruct (get_indentation_prefix L Hnb) as (a & ch & t & -> & _ & _ & Hind).
    unfold candidate. rewrite Hind.
    rewrite !not_elem_of_app. split_and!.
    + intros ?. apply HcrL. apply elem_of_app. by left.
    + by destruct Hc as (_ & _ & ?).
    + by intros ?%list_elem_of_singleton.
Qed.

(** The file that the first run wrote is read back as its working copy. *)
Lemma first_run_read_back :
  readlines (writelines (modified_lines st)) = modified_lines st.
Proof.
  apply readlines_writelines; [apply first_run_proper|apply first_run_no_cr].
Qed.

(** On the working copy of the first run no unit changes anything. *)
Lemma second_run_settled k :
  steps {| modified_lines := modified_lines st; fixed_count := k |} gs
  = Ok {| modified_lines := modified_lines st; fixed_count := k |}.
Proof.
  apply fix_units_skipped. intros g Hg. destruct g as [|v o]; [done|].
  destruct (decide (0 <= line v - 1 < len (modified_lines st))) as [Hr|Hr].
  2:{ unfold fix_unit. simpl modified_lines.
      destruct (_ && _) eqn:E; [|done].
      apply andb_true_iff in E as [?%Z.leb_le ?%Z.ltb_lt]. lia. }
  set (t := Z.to_nat (line v - 1)).
  assert (Hv : line v - 1 = Z.of_nat t) by (unfold t; lia).
  assert (Ht : (t < length (readlines content))%nat)
    by (rewrite <- first_run_length; unfold len in Hr; lia).
  apply lookup_lt_is_Some in Ht as [L0 HL0].
  assert (Htgt : target_of (v :: o) t) by (by exists v).
  destruct (fix_units_final _ _ _ Hrun (group_targets_distinct vs)
              v o t L0 Hg Hv HL0) as [[Hd Hfin] | (x & Hd & Hfin)].
  - rewrite (fix_unit_decision
               {| modified_lines := modified_lines st; fixed_count := k |}
               v o t L0 Hv Hfin), Hd. done.
  - rewrite (fix_unit_decision
               {| modified_lines := modified_lines st; fixed_count := k |}
               v o t x Hv Hfin).
    rewrite (decision_stable L0 _ x); [done| | |exact Hd].
    + by eapply Hnonblank.
    + intros j p Hq Hget. by destruct (Hclean _ _ _ _ _ Hq Hget) as (? & _).
Qed.

End Runs.

(** C9, amended. Let the answer of the service depend on the finding only,
    let every proposal be clean (no white space in front, no line end
    inside) and let no target line be blank.  Then a second run of
    [fix_file] on what the first run left accepts no change: its counter
    ends at zero and it returns the file system as it is. *)
Theorem second_run_changes_nothing (fs fs1 : gmap str str) (file_path : str)
    (vs : list Vulnerability) (content : str) :
  fs !! file_path = Some content ->
  (forall l c v j p,
     query l c v = Some j -> getitem (lit "fixed_line") j = Ok (JStr p) ->
     clean (rstrip p)) ->
  (forall g (i : nat) L,
     g ∈ _group_vulnerabilities vs -> target_of g i ->
     readlines content !! i = Some L -> ~ blank L) ->
  fix_file post json_loads fs file_path vs = Ok fs1 ->
  accepted_changes post json_loads fs1 file_path vs = Ok 0
  /\ fix_file post json_loads fs1 file_path vs = Ok fs1.
Proof.
  intros Hfile Hclean Hnonblank Hfirst.
  assert (Hzero : accepted_changes post json_loads fs1 file_path vs = Ok 0).
  { revert Hfirst. unfold fix_file, accepted_changes. rewrite Hfile.
    fold (start content).
    destruct (steps (start content) (_group_vulnerabilities vs)) as [st|]
      eqn:Hrun; [|done].
    simpl. unfold finalize. destruct (0 <? fixed_count st) eqn:Hc.
    - destruct (with_suffix _ _) as [b|]; [|done]. simpl.
      unfold copy2. case_bool_decide; [done|]. rewrite Hfile. simpl.
      intros ?; simplify_eq. rewrite lookup_insert_eq.
      unfold start.
      rewrite (first_run_read_back vs content st Hclean Hnonblank Hrun).
      by rewrite (second_run_settled vs content st Hclean Hnonblank Hrun 0).
    - intros ?; simplify_eq. rewrite Hfile. rewrite Hrun. simpl.
      apply Z.ltb_ge in Hc.
      destruct (fix_units_inv post json_loads _ _ _ Hrun (group_targets_distinct vs))
        as (_ & _ & Hcnt).
      pose proof (diff_count_nonneg (modified_lines (start content))
                    (modified_lines st)).
      change (fixed_count (start content)) with 0 in Hcnt. f_equal. lia. }
  split; [done|]. apply fix_file_unchanged. by left.
Qed.

End Twice.
End Idempotence.

(** ** The backup path *)

Module Backup.
Import AIHealer Spec Samples Pipeline.

Lemma split_name_plain name :
  "/"%char ∉ name -> split_name name = ([], name).
Proof.
  induction name as [|c name IH]; [done|]. intros [Hc Hn]%not_elem_of_cons.
  simpl. rewrite IH by done.
  destruct (Ascii.eqb c "/") eqn:E; [|done].
  apply Ascii.eqb_eq in E. congruence.
Qed.

Lemma split_name_dir dir name :
  "/"%char ∉ name ->
  split_name ((dir ++ ["/"%char]) ++ name) = (dir ++ ["/"%char], name).
Proof.
  intros Hn. induction dir as [|c dir IH].
  - simpl. by rewrite split_name_plain.
  - change (split_name (c :: (dir ++ ["/"%char]) ++ name)
            = (c :: dir ++ ["/"%char], name)).
    simpl. simpl in IH. rewrite IH. by destruct dir.
Qed.

Lemma rfind_dot_none ext : "."%char ∉ ext -> rfind_dot ext = None.
Proof.
  induction ext as [|c ext IH]; [done|]. intros [Hc He]%not_elem_of_cons.
  simpl. rewrite IH by done.
  destruct (Ascii.eqb c ".") eqn:E; [|done].
  apply Ascii.eqb_eq in E. congruence.
Qed.

Lemma rfind_dot_last stem ext :
  "."%char ∉ ext -> rfind_dot (stem ++ "."%char :: ext) = Some (length stem).
Proof.
  intros He. induction stem as [|c stem IH]; simpl.
  - by rewrite rfind_dot_none.
  - by rewrite IH.
Qed.

(** [with_suffix] replaces the extension of the name. *)
Lemma with_suffix_replaces dir stem ext new :
  "/"%char ∉ stem -> "/"%char ∉ ext -> "."%char ∉ ext ->
  stem <> [] -> ext <> [] ->
  with_suffix ((dir ++ ["/"%char]) ++ stem ++ "."%char :: ext) new
  = Ok ((dir ++ ["/"%char]) ++ stem ++ new).
Proof.
  intros Hs He Hd Hne1 Hne2. unfold with_suffix.
  rewrite split_name_dir.
  2:{ rewrite not_elem_of_app, not_elem_of_cons. done. }
  assert (Hsuf : suffix (stem ++ "."%char :: ext) = "."%char :: ext).
  { unfold suffix. rewrite rfind_dot_last by done.
    rewrite bool_decide_eq_true_2.
    - by rewrite drop_app_length.
    - rewrite length_app. simpl. destruct stem; [done|]. destruct ext; [done|].
      simpl. lia. }
  rewrite Hsuf.
  destruct (stem ++ "."%char :: ext) as [|c n] eqn:E; [by destruct stem|].
  rewrite <- E.
  replace (length (stem ++ "."%char :: ext) - length ("."%char :: ext))%nat
    with (length stem) by (rewrite length_app; lia).
  rewrite take_app_length. by rewrite <- !app_assoc.
Qed.

Section Overwrite.

Variable post : prompt -> http_reply.
Variable json_loads : str -> option json.

(** After a run that accepted a fix, the backup path holds what the file
    held before that run. *)
Lemma backup_holds_last fs fs' p vs b c (n : Z) :
  fs !! p = Some c -> with_suffix p (lit ".bak") = Ok b ->
  accepted_changes post json_loads fs p vs = Ok n -> 0 < n ->
  fix_file post json_loads fs p vs = Ok fs' ->
  fs' !! b = Some c.
Proof.
  unfold accepted_changes, fix_file, start. intros Hp Hb. rewrite Hp.
  destruct (fix_units _ _ _ _) as [st|]; simpl; [|done].
  intros ? Hn; simplify_eq. unfold finalize.
  assert ((0 <? fixed_count st) = true) as -> by by apply Z.ltb_lt.
  rewrite Hb. simpl. unfold copy2. case_bool_decide; [done|].
  rewrite Hp. simpl. intros ?; simplify_eq.
  rewrite lookup_insert_ne by done. by rewrite lookup_insert_eq.
Qed.

(** C10. The backup path is the path with its extension replaced by
    [.bak].  Two files of one directory whose names differ only in the
    extension are distinct and have the same backup path; when fixes are
    accepted in both, the backup holds what the second file held and the
    backup of the first is gone.  So it is for [/src/foo.c] and
    [/src/foo.h]. *)
Theorem backup_path_not_injective (dir stem ext1 ext2 : str) :
  "/"%char ∉ stem -> stem <> [] ->
  "/"%char ∉ ext1 -> "."%char ∉ ext1 -> ext1 <> [] ->
  "/"%char ∉ ext2 -> "."%char ∉ ext2 -> ext2 <> [] ->
  ext1 <> ext2 ->
  let path1 := (dir ++ ["/"%char]) ++ stem ++ "."%char :: ext1 in
  let path2 := (dir ++ ["/"%char]) ++ stem ++ "."%char :: ext2 in
  let backup := (dir ++ ["/"%char]) ++ stem ++ lit ".bak" in
  path1 <> path2
  /\ with_suffix path1 (lit ".bak") = Ok backup
  /\ with_suffix path2 (lit ".bak") = Ok backup
  /\ (forall fs fs1 fs2 vs1 vs2 c2 n,
        fix_file post json_loads fs path1 vs1 = Ok fs1 ->
        fs1 !! path2 = Some c2 ->
        accepted_changes post json_loads fs1 path2 vs2 = Ok n -> 0 < n ->
        fix_file post json_loads fs1 path2 vs2 = Ok fs2 ->
        fs2 !! backup = Some c2)
  /\ with_suffix (lit "/src/foo.c") (lit ".bak") = Ok (lit "/src/foo.bak")
  /\ with_suffix (lit "/src/foo.h") (lit ".bak") = Ok (lit "/src/foo.bak").
Proof.
  intros Hs Hne H1 H1' Hne1 H2 H2' Hne2 Hdiff path1 path2 backup.
  split_and!.
  - unfold path1, path2. intros E.
    apply app_inv_head in E. apply app_inv_head in E. congruence.
  - by apply with_suffix_replaces.
  - by apply with_suffix_replaces.
  - intros fs fs1 fs2 vs1 vs2 c2 n _ Hc2 Hacc Hn Hrun.
    eapply backup_holds_last; [exact Hc2| |exact Hacc|exact Hn|exact Hrun].
    by apply with_suffix_replaces.
  - reflexivity.
  - reflexivity.
Qed.

End Overwrite.
End Backup.

(** ** The reports of the analyzers *)

Module Reports.
Import StaticAnalyzer Spec Samples.

Section Normalizer.

Variable resolve : str -> str.

Lemma flawfinder_line_not_digits field :
  isdigit field = false -> flawfinder_line field = Ok 0.
Proof. intros H. unfold flawfinder_line. by rewrite H. Qed.

(** C7. A report of [cppcheck] whose location has the line [abc] makes
    [_run_cppcheck] raise [ValueError], which its [except ET.ParseError]
    does not catch; the same line in a report of [flawfinder] gives a
    finding at line 0.  The rest of the claim holds: a report that does
    not parse, or a report that is absent, gives no finding, and a
    location without a line gives line 0. *)
Theorem cppcheck_line_not_a_number_raises :
  _run_cppcheck resolve (Some (report (lit "abc"))) = Raise ValueError
  /\ map line <$> _run_flawfinder resolve (Some (csv (lit "abc"))) = Ok [0]
  /\ map line <$> _run_cppcheck resolve (Some (report (lit "12"))) = Ok [12]
  /\ _run_cppcheck resolve None = Ok []
  /\ _run_flawfinder resolve None = Ok []
  /\ (forall location, get (lit "line") location = None ->
        cppcheck_line location = Ok 0)
  /\ (forall field, isdigit field = false -> flawfinder_line field = Ok 0).
Proof.
  split_and!; try reflexivity.
  - intros location H. unfold cppcheck_line. by rewrite H.
  - apply flawfinder_line_not_digits.
Qed.

End Normalizer.
End Reports.

(** ** The properties on the sample data *)

Module Examples.
Import AIHealer StaticAnalyzer Spec Samples.
Import Grouping Patching Pipeline WriteBack LineCount Idempotence Backup.

Lemma not_in_text (c : ascii) (s : str) : forallb (fun d => negb (Ascii.eqb d c)) s = true -> c ∉ s.
Proof.
  rewrite forallb_forall. intros H Hin. apply list_elem_of_In in Hin.
  specialize (H c Hin). by rewrite Ascii.eqb_refl in H.
Qed.


(** C9, as the specification states it, fails: a proposal that starts
    with white space is indented again by every run. *)
Lemma indented_proposal_is_applied_again :
  ~ (forall (post : prompt -> http_reply) (json_loads : str -> option json)
            (fs fs1 : gmap str str) file_path vs,
       (forall l c l' c' v,
          _query_llm_for_fix post json_loads l c v
          = _query_llm_for_fix post json_loads l' c' v) ->
       fix_file post json_loads fs file_path vs = Ok fs1 ->
       fix_file post json_loads fs1 file_path vs = Ok fs1).
Proof.
  intros H.
  set (post := answer (lit "  fgets(buf, 8, stdin);")).
  destruct (fix_file post wrap disk (lit "/src/foo.c") [finding 1]) as [fs1|] eqn:E;
    [|vm_compute in E; discriminate].
  specialize (H post wrap disk fs1 (lit "/src/foo.c") [finding 1]
                (fun _ _ _ _ _ => eq_refl) E).
  assert (E1 : fs1 !! lit "/src/foo.c"
               = Some (lit "    fgets(buf, 8, stdin);" ++ [LF]
                       ++ lit "  return 0;" ++ [LF])).
  { vm_compute in E. injection E as <-. reflexivity. }
  assert (E2 : (fun r => match r with Ok fs => fs !! lit "/src/foo.c" | Raise _ => None end)
                 (fix_file post wrap fs1 (lit "/src/foo.c") [finding 1])
               = Some (lit "      fgets(buf, 8, stdin);" ++ [LF]
                       ++ lit "  return 0;" ++ [LF])).
  { vm_compute in E. injection E as <-. vm_compute. reflexivity. }
  rewrite H in E2. simpl in E2. rewrite E1 in E2. vm_compute in E2. discriminate.
Qed.

(** C2 on two findings of [/src/foo.c], at lines 0 and 2. *)
Lemma unlocated_finding_never_patched_witness :
  finding 0 ∈ [finding 0; finding 2] /\ line (finding 0) = 0
  /\ forall st,
       fix_unit (answer (lit "fgets(buf, 8, stdin);")) wrap st
         [finding 0; finding 2] = Ok st.
Proof.
  split; [by left|]. split; [reflexivity|].
  destruct (unlocated_finding_never_patched (answer (lit "fgets(buf, 8, stdin);"))
              wrap [finding 0; finding 2] (finding 0)) as (_ & H & _);
    [by left|reflexivity|].
  apply (H [finding 0; finding 2]); [vm_compute|]; by left.
Defined.

(** C3 on the first line of [/src/foo.c]. *)
Lemma significant_change_filter_witness :
  exists st',
    fix_unit (answer (lit "fgets(buf, 8, stdin);  ")) wrap session0 [finding 1] = Ok st'
    /\ fixed_count st' = 1
    /\ modified_lines st' !! 0%nat = Some (lit "  fgets(buf, 8, stdin);" ++ [LF]).
Proof.
  destruct (significant_change_filter (answer (lit "fgets(buf, 8, stdin);  ")) wrap
              session0 (finding 1) [] (lit "  gets(buf);" ++ [LF])
              [(lit "fixed_line", JStr (lit "fgets(buf, 8, stdin);  "));
               (lit "reason", JStr (lit "safer"))]
              (lit "fgets(buf, 8, stdin);  "))
    as (st' & Hstep & Hacc & _).
  - vm_compute. split; [discriminate|reflexivity].
  - reflexivity.
  - reflexivity.
  - reflexivity.
  - exists st'. split; [exact Hstep|].
    rewrite Hacc; [split; reflexivity|].
    split; intros E; vm_compute in E; discriminate.
Defined.


(** C5 with a service that is down. *)
Lemma no_change_no_write_witness :
  fix_file down reject disk (lit "/src/foo.c") [finding 1] = Ok disk.
Proof. apply no_change_no_write. right. intros l c v. reflexivity. Defined.


(** C8 with a service that fails for the call of [gets] only: the unit of
    line 1 of a file of six lines is skipped and the unit of line 6 is
    fixed; the file [/src/bar.c] is skipped and the header after it is
    fixed. *)
Lemma service_failure_skips_unit_witness :
  (exists st',
     fix_units flaky wrap (start long_c)
       (_group_vulnerabilities [finding 1; finding 6]) = Ok st'
     /\ fixed_count st' = 1
     /\ modified_lines st' !! 0%nat = Some (lit "  gets(buf);" ++ [LF])
     /\ modified_lines st' !! 5%nat = Some (lit "  strncpy(a, b, n);" ++ [LF]))
  /\ (exists fs',
        heal_files flaky wrap bar_disk
          [(lit "/src/bar.c", [bar_finding 1]); (lit "/src/foo.h", [header_finding 1])]
        = Ok fs'
        /\ fs' !! lit "/src/bar.c" = Some bar_c
        /\ fs' !! lit "/src/foo.h" = Some (lit "strncpy(a, b, n);" ++ [LF])).
Proof.
  destruct (service_failure_skips_unit flaky wrap (start long_c) [finding 1]
              [[finding 6]]) as (_ & _ & Hunits & _ & _ & Hfiles).
  { intros pr H. vm_compute in H. injection H as <-. right. left. reflexivity. }
  split.
  - assert (Hg : _group_vulnerabilities [finding 1; finding 6]
                 = [[finding 1]; [finding 6]]) by (vm_compute; reflexivity).
    rewrite Hg, Hunits. eexists. split; [vm_compute; reflexivity|].
    split_and!; reflexivity.
  - destruct (Hfiles bar_disk (lit "/src/bar.c") bar_c [bar_finding 1]
                [(lit "/src/foo.h", [header_finding 1])]) as (_ & Hheal & _).
    + reflexivity.
    + intros g0 pr Hg0 Hpr.
      assert (g0 = [bar_finding 1]) as ->.
      { vm_compute in Hg0. apply list_elem_of_singleton in Hg0. rewrite Hg0.
        reflexivity. }
      vm_compute in Hpr. injection Hpr as <-. right. left. reflexivity.
    + rewrite Hheal. eexists. split; [vm_compute; reflexivity|].
      split; reflexivity.
Defined.

(** C9 on [/src/foo.c], with a proposal that has no indentation. *)
Lemma second_run_changes_nothing_witness :
  match fix_file (answer (lit "fgets(buf, 8, stdin);")) wrap disk (lit "/src/foo.c")
          [finding 1] with
  | Ok fs1 =>
      fix_file (answer (lit "fgets(buf, 8, stdin);")) wrap fs1 (lit "/src/foo.c")
        [finding 1] = Ok fs1
  | Raise _ => False
  end.
Proof.
  destruct (fix_file (answer (lit "fgets(buf, 8, stdin);")) wrap disk
              (lit "/src/foo.c") [finding 1]) as [fs1|] eqn:E;
    [|vm_compute in E; discriminate].
  apply (second_run_changes_nothing (answer (lit "fgets(buf, 8, stdin);")) wrap
           (fun _ _ _ _ _ => eq_refl) disk fs1 (lit "/src/foo.c") [finding 1] foo_c).
  - reflexivity.
  - intros l c v j p Hq Hget. vm_compute in Hq. injection Hq as <-.
    vm_compute in Hget. injection Hget as <-.
    split; [reflexivity|]. split; apply not_in_text; reflexivity.
  - intros g i L Hg (v & Hv & Hi) HL.
    assert (g = [finding 1]) as ->.
    { vm_compute in Hg. apply list_elem_of_singleton in Hg. rewrite Hg. reflexivity. }
    injection Hv as <-. assert (i = 0%nat) as -> by (simpl in Hi; lia).
    vm_compute in HL. injection HL as <-. intros Hb. vm_compute in Hb. discriminate.
  - exact E.
Defined.

(** C10 on [/src/foo.c] and [/src/foo.h]. *)
Lemma backup_path_not_injective_witness :
  lit "/src/foo.c" <> lit "/src/foo.h"
  /\ with_suffix (lit "/src/foo.c") (lit ".bak") = Ok (lit "/src/foo.bak")
  /\ with_suffix (lit "/src/foo.h") (lit ".bak") = Ok (lit "/src/foo.bak").
Proof.
  destruct (backup_path_not_injective down reject (lit "/src") (lit "foo")
              (lit "c") (lit "h")) as (Hne & H1 & H2 & _);
    try (apply not_in_text; reflexivity); try discriminate.
  split; [exact Hne|]. split; [exact H1|exact H2].
Defined.

End Examples.
